(** * xspec_interface: model assembly, archiving and parameter migration

    A shallow embedding of [interface.py].  Python strings are [string]
    (code points below 256), Python floats are IEEE binary64 [float],
    dictionaries that the program iterates are insertion-ordered
    association lists, dictionaries that are only looked up are [gmap]s,
    and every operation that can raise returns a [result]. *)

From stdpp Require Import gmap strings list fin_maps sorting.
From Stdlib Require Import PrimFloat DecimalString Ascii.
From Stdlib Require String.

(** ** Exceptions *)

Inductive PyError : Type :=
  | KeyError
  | IndexError
  | AttributeError
  | StopIteration
  | UnboundLocalError
  | ValueError
  | TypeError
  | XspecError.

Inductive result (A : Type) : Type :=
  | Ok (a : A)
  | Raise (e : PyError).

Arguments Ok {A} a.
Arguments Raise {A} e.

#[global] Instance result_ret : MRet result := fun _ a => Ok a.
#[global] Instance result_bind : MBind result := fun _ _ f m =>
  match m with
  | Ok a => f a
  | Raise e => Raise e
  end.

Definition or_raise {A} (e : PyError) (o : option A) : result A :=
  match o with
  | Some a => Ok a
  | None => Raise e
  end.

(** ** Python string primitives *)

Module PyStr.

(** [s.startswith(p)], returning what follows the prefix. *)
Fixpoint strip_prefix (p s : string) : option string :=
  match p, s with
  | EmptyString, _ => Some s
  | String a p', String b s' =>
      if Ascii.eqb a b then strip_prefix p' s' else None
  | String _ _, EmptyString => None
  end.

(** [sub in s] *)
Fixpoint contains (sub s : string) : bool :=
  match strip_prefix sub s with
  | Some _ => true
  | None =>
      match s with
      | EmptyString => false
      | String _ s' => contains sub s'
      end
  end.

(** [s.replace(old, new)] for a non-empty [old]: occurrences are replaced
    left to right and do not overlap; [skip] counts the characters of the
    occurrence just replaced that are still to be dropped. *)
Fixpoint replace_from (old new : string) (skip : nat) (s : string) : string :=
  match s with
  | EmptyString => EmptyString
  | String c s' =>
      match skip with
      | S k => replace_from old new k s'
      | O =>
          match strip_prefix old s with
          | Some _ => new +:+ replace_from old new (String.length old - 1) s'
          | None => String c (replace_from old new 0 s')
          end
      end
  end.

Definition replace (old new s : string) : string := replace_from old new 0 s.

(** Truth value of a string: [if s:] *)
Definition truthy (s : string) : bool :=
  match s with
  | EmptyString => false
  | String _ _ => true
  end.

(** [s.split('_')[0]] *)
Fixpoint before_underscore (s : string) : string :=
  match s with
  | EmptyString => EmptyString
  | String c s' =>
      if Ascii.eqb c "_"%char then EmptyString else String c (before_underscore s')
  end.

(** [f'{n}'] for a non-negative integer *)
Definition of_nat (n : nat) : string := NilEmpty.string_of_uint (Nat.to_uint n).

(** Case folding of one character, as [re.IGNORECASE] sees it on the
    characters below 128. *)
Definition lower (c : ascii) : ascii :=
  let n := nat_of_ascii c in
  if (65 <=? n)%nat && (n <=? 90)%nat then ascii_of_nat (n + 32) else c.

Fixpoint strip_prefix_ci (p s : string) : option string :=
  match p, s with
  | EmptyString, _ => Some s
  | String a p', String b s' =>
      if Ascii.eqb (lower a) (lower b) then strip_prefix_ci p' s' else None
  | String _ _, EmptyString => None
  end.

(** [s[:-1]] when [s] ends with the character [c] *)
Fixpoint strip_last (c : ascii) (s : string) : option string :=
  match s with
  | EmptyString => None
  | String a EmptyString => if Ascii.eqb a c then Some EmptyString else None
  | String a s' =>
      match strip_last c s' with
      | Some r => Some (String a r)
      | None => None
      end
  end.

End PyStr.

(** ** The [parse] package, on the two formats the program uses

    [parse.parse(fmt, s)] compiles [fmt] to a regular expression in which
    an untyped field [{name}] is the lazy group [(.+?)], the text between
    fields is matched literally and without regard to case, and the whole
    string has to match.  For a format [{outer}<lit>{inner}<close>] the
    first match of the backtracking search is therefore the one with the
    shortest non-empty [outer], and [inner] is all that lies between the
    literal and the closing text. *)

Module Parse.

Record Result : Type := mkResult { outer : string; inner : string }.

(** What [inner] has to be once the literal has matched at this place. *)
Definition inner_of (close : option ascii) (rest : string) : option string :=
  match close with
  | Some c =>
      match PyStr.strip_last c rest with
      | Some i => if PyStr.truthy i then Some i else None
      | None => None
      end
  | None => if PyStr.truthy rest then Some rest else None
  end.

(** [acc] is the candidate for [outer] (at least one character), [s] what
    follows it. *)
Fixpoint scan (lit : string) (close : option ascii) (acc : string) (s : string)
  : option Result :=
  let here :=
    match PyStr.strip_prefix_ci lit s with
    | Some rest =>
        match inner_of close rest with
        | Some i => Some (mkResult acc i)
        | None => None
        end
    | None => None
    end in
  match here with
  | Some r => Some r
  | None =>
      match s with
      | EmptyString => None
      | String c s' => scan lit close (acc +:+ String c EmptyString) s'
      end
  end.

Definition parse2 (lit : string) (close : option ascii) (s : string) : option Result :=
  match s with
  | EmptyString => None
  | String c s' => scan lit close (String c EmptyString) s'
  end.

End Parse.

(** Two strings that differ in case only. *)
Definition same_fold (a b : string) : Prop :=
  map PyStr.lower (String.list_ascii_of_string a)
  = map PyStr.lower (String.list_ascii_of_string b).

(** The text that closes a pattern. *)
Definition closing (close : option ascii) : string :=
  match close with
  | Some c => String c ""
  | None => ""
  end.

(** [CONSTANT_EXPRESSION_NO_PAREN = '{outer}constant*{inner}'] and
    [CONSTANT_EXPRESSION_PAREN = '{outer}constant*({inner})'], as patterns
    and as templates. *)
Definition parse_CONSTANT_EXPRESSION_NO_PAREN (s : string) : option Parse.Result :=
  Parse.parse2 "constant*" None s.

Definition parse_CONSTANT_EXPRESSION_PAREN (s : string) : option Parse.Result :=
  Parse.parse2 "constant*(" (Some ")"%char) s.

Definition format_CONSTANT_EXPRESSION_PAREN (p : Parse.Result) : string :=
  Parse.outer p +:+ "constant*(" +:+ Parse.inner p +:+ ")".

(** ** Energy bin edges *)

(** One-dimensional [a - b] of numpy: element by element, an array of
    length one being stretched to the length of the other. *)
Definition np_sub (a b : list float) : result (list float) :=
  if (List.length a =? List.length b)%nat then
    Ok (zip_with PrimFloat.sub a b)
  else
    match a, b with
    | _, [y] => Ok (map (fun x => PrimFloat.sub x y) a)
    | [x], _ => Ok (map (fun y => PrimFloat.sub x y) b)
    | _, _ => Raise ValueError
    end.

(** [a[-1]] *)
Definition np_last (a : list float) : result float :=
  or_raise IndexError (last a).

Definition compute_energy_edges (energy energy_err : list float) : result (list float) :=
  lower ← np_sub energy energy_err;
  e ← np_last energy;
  w ← np_last energy_err;
  Ok (lower ++ [PrimFloat.add e w]).

(** ** Expression algebra *)

(** The one field of the interface object that
    [_configure_new_expression] reads. *)
Definition _configure_new_expression (pileup_expression new old : string)
  : result string :=
  let new :=
    if PyStr.contains "const*" new
    then PyStr.replace "const*" "constant*" new
    else new in
  new ←
    (if PyStr.truthy old then
       if PyStr.contains "constant" old then
         let old := " " +:+ old in
         let p := parse_CONSTANT_EXPRESSION_PAREN old in
         let p :=
           match p with
           | None => parse_CONSTANT_EXPRESSION_NO_PAREN old
           | Some _ => p
           end in
         p ← or_raise AttributeError p;
         let p := Parse.mkResult (Parse.outer p) (Parse.inner p +:+ " + " +:+ new) in
         Ok (format_CONSTANT_EXPRESSION_PAREN p)
       else Ok (old +:+ " + " +:+ new)
     else Ok new);
  if PyStr.truthy pileup_expression
  then Ok (pileup_expression +:+ " + " +:+ new)
  else Ok new.

(** The standing pileup expression, when there is one, in front of an
    expression. *)
Definition with_pileup (pileup_expression body : string) : string :=
  if PyStr.truthy pileup_expression
  then pileup_expression +:+ " + " +:+ body
  else body.

(** The result of the extension when the previous expression splits as
    [outer], wrapper, [inner]. *)
Definition rewrapped (pileup_expression outer inner new' : string) : string :=
  with_pileup pileup_expression
    (outer +:+ "constant*(" +:+ inner +:+ " + " +:+ new' +:+ ")").

(** *** What the patterns mean *)

(** [s] starts with the literal in some spelling; the non-empty [inner]
    and the closing text follow and end the string. *)
Definition matches_here (lit : string) (close : option ascii) (s inner : string)
  : Prop :=
  ∃ w, s = w +:+ inner +:+ closing close ∧ same_fold lit w ∧ inner ≠ "".

(** [s] is a non-empty [outer], then the literal in some spelling, then a
    non-empty [inner], then the closing text. *)
Definition splits (lit : string) (close : option ascii) (s outer inner : string)
  : Prop :=
  outer ≠ "" ∧ ∃ tl, s = outer +:+ tl ∧ matches_here lit close tl inner.

(** The split that the lazy [outer] of the pattern finds first: none has
    a shorter [outer]. *)
Definition first_split (lit : string) (close : option ascii) (s outer inner : string)
  : Prop :=
  splits lit close s outer inner
  ∧ ∀ o i, splits lit close s o i → String.length outer ≤ String.length o.

(** The attempt of [Parse.scan] at one place. *)
Definition here (lit : string) (close : option ascii) (s : string) : option string :=
  match PyStr.strip_prefix_ci lit s with
  | Some rest => Parse.inner_of close rest
  | None => None
  end.

(** ** Insertion-ordered dictionaries

    A Python [dict] or [OrderedDict] whose order of iteration the program
    relies on.  Assigning to a key that is present keeps its place. *)

Module ODict.

Fixpoint lookup {V} (k : string) (d : list (string * V)) : option V :=
  match d with
  | [] => None
  | (k', v) :: d' => if decide (k = k') then Some v else lookup k d'
  end.

Fixpoint insert {V} (k : string) (v : V) (d : list (string * V)) : list (string * V) :=
  match d with
  | [] => [(k, v)]
  | (k', v') :: d' =>
      if decide (k = k') then (k, v) :: d' else (k', v') :: insert k v d'
  end.

(** [k in d] *)
Definition mem {V} (k : string) (d : list (string * V)) : bool :=
  bool_decide (is_Some (lookup k d)).

Definition keys {V} (d : list (string * V)) : list string := d.*1.
Definition values {V} (d : list (string * V)) : list V := d.*2.

(** [next(reversed(d))] *)
Definition last_key {V} (d : list (string * V)) : option string := last (keys d).

End ODict.

(** ** The objects of the fitting engine

    Models and components are looked at for their structure only; a
    parameter is a mutable object, known by the place where it lives:
    data group, model name, component name, parameter name.  The engine
    keeps the parameter objects in a store under these places, so that two
    names for one place are one object and different places never
    share. *)

Record ParamRef : Type := mkParamRef {
  ref_group : nat;
  ref_model : string;
  ref_component : string;
  ref_parameter : string;
}.

#[global] Instance ParamRef_eq_dec : EqDecision ParamRef.
Proof. solve_decision. Defined.

#[global] Instance ParamRef_countable : Countable ParamRef.
Proof.
  apply (inj_countable'
           (fun r => (ref_group r, ref_model r, ref_component r, ref_parameter r))
           (fun t => mkParamRef t.1.1.1 t.1.1.2 t.1.2 t.2)).
  by intros [].
Defined.

(** The [link] of a parameter is set from a string ([''] unlinks) or from
    another parameter object. *)
Inductive Link : Type :=
  | LinkExpr (s : string)
  | LinkParam (r : ParamRef).

#[global] Instance Link_eq_dec : EqDecision Link.
Proof. solve_decision. Defined.

(** [if parameter.link:] *)
Definition link_truthy (l : Link) : bool :=
  match l with
  | LinkExpr s => PyStr.truthy s
  | LinkParam _ => true
  end.

Record XspecParameter : Type := mkParameter {
  p_name : string;
  p_values : list float;
  p_error : list float;
  p_link : Link;
  p_frozen : bool;
  p_index : nat;
  p_unit : string;
}.

Record Component : Type := mkComponent {
  c_name : string;
  parameterNames : list string;
}.

Record Model : Type := mkModel {
  m_name : string;
  m_expression : string;
  componentNames : list string;
  m_dict : gmap string Component;
  nParameters : nat;
}.

Record Gain : Type := mkGain {
  isOn : bool;
  g_parameterNames : list string;
  g_dict : gmap string XspecParameter;
}.

Record Spectrum : Type := mkSpectrum {
  statistic : float;
  multiresponse : list Gain;
}.

(** What [xspec.Plot] hands out for one data group after [Plot("data")]. *)
Record PlotData : Type := mkPlotData {
  plot_x : list float;
  plot_xErr : list float;
  plot_y : list float;
  plot_yErr : list float;
  plot_model : list float;
  plot_addComp : list (list float);
}.

(** A setter call received by the engine. *)
Inductive Call : Type :=
  | SetValues (r : ParamRef) (v : list float)
  | SetValue (r : ParamRef) (v : float)
  | SetLink (r : ParamRef) (l : Link)
  | SetFrozen (r : ParamRef) (b : bool).

(** The engine: its models by data group and name, its parameter
    objects, its spectra and plot arrays by data group, and the setter
    calls it has received, oldest first. *)
Record Xspec : Type := mkXspec {
  AllModels : gmap (nat * string) Model;
  params : gmap ParamRef XspecParameter;
  AllData : gmap nat Spectrum;
  Plot : gmap nat PlotData;
  calls : list Call;
}.

(** [xspec.AllModels(group, name)] *)
Definition get_model (x : Xspec) (group : nat) (name : string) : result Model :=
  or_raise XspecError (AllModels x !! (group, name)).

(** [model.__dict__[component_name]] *)
Definition get_component (m : Model) (component_name : string) : result Component :=
  or_raise KeyError (m_dict m !! component_name).

(** [parameter_name in component.__dict__], for the component
    [component_name] of the model [name] of data group [group]; the
    dictionary of a component is looked at for its parameters only. *)
Definition has_parameter (x : Xspec) (r : ParamRef) : bool :=
  bool_decide (is_Some (params x !! r)).

(** [component.__dict__[parameter_name]]: the parameter object. *)
Definition get_parameter (x : Xspec) (r : ParamRef) : result ParamRef :=
  if has_parameter x r then Ok r else Raise KeyError.

(** Reading the fields of a parameter object. *)
Definition read_parameter (x : Xspec) (r : ParamRef) : result XspecParameter :=
  or_raise KeyError (params x !! r).

Definition with_values (v : list float) (p : XspecParameter) : XspecParameter :=
  mkParameter (p_name p) v (p_error p) (p_link p) (p_frozen p) (p_index p) (p_unit p).
Definition with_value (v : float) (p : XspecParameter) : XspecParameter :=
  with_values (v :: tail (p_values p)) p.
Definition with_link (l : Link) (p : XspecParameter) : XspecParameter :=
  mkParameter (p_name p) (p_values p) (p_error p) l (p_frozen p) (p_index p) (p_unit p).
Definition with_frozen (b : bool) (p : XspecParameter) : XspecParameter :=
  mkParameter (p_name p) (p_values p) (p_error p) (p_link p) b (p_index p) (p_unit p).

(** What a setter call does to the object it is sent to.  The engine is
    taken to store the settings it is given, and the settable fields of a
    parameter to be independent of each other; a single float replaces the
    value and leaves the other settings. *)
Definition call_target (c : Call) : ParamRef :=
  match c with
  | SetValues r _ | SetValue r _ | SetLink r _ | SetFrozen r _ => r
  end.

Definition call_effect (c : Call) : XspecParameter → XspecParameter :=
  match c with
  | SetValues _ v => with_values v
  | SetValue _ v => with_value v
  | SetLink _ l => with_link l
  | SetFrozen _ b => with_frozen b
  end.

Definition send (c : Call) (x : Xspec) : Xspec :=
  mkXspec (AllModels x) (alter (call_effect c) (call_target c) (params x))
          (AllData x) (Plot x) (calls x ++ [c]).

(** [parameter.values = v] for a sequence of floats *)
Definition set_values (r : ParamRef) (v : list float) : Xspec → Xspec :=
  send (SetValues r v).
(** [component.parameter = v] for one float *)
Definition set_value (r : ParamRef) (v : float) : Xspec → Xspec :=
  send (SetValue r v).
(** [parameter.link = l] *)
Definition set_link (r : ParamRef) (l : Link) : Xspec → Xspec :=
  send (SetLink r l).
(** [parameter.frozen = b] *)
Definition set_frozen (r : ParamRef) (b : bool) : Xspec → Xspec :=
  send (SetFrozen r b).

(** The settings that the string ['0 0 0 0 0 0'] stands for. *)
Definition ZERO_VALUES : list float := [0; 0; 0; 0; 0; 0]%float.

(** A [for] loop whose body can raise. *)
Fixpoint for_each {A S : Type} (l : list A) (body : A → S → result S) (s : S)
  : result S :=
  match l with
  | [] => Ok s
  | a :: l' => s' ← body a s; for_each l' body s'
  end.

(** ** Archived snapshots *)

(** Label and unit of the parameters the interface knows, by component
    family; a unit is kept as its name, the empty name for a bare number. *)
Definition COMPONENT_PARAMETER_MAPPING
  : list (string * list (string * (string * string))) :=
  [ ("constant",
      [ ("factor", ("factor", "")) ]);
    ("vapec",
      [ ("kT", ("temperature", "keV"));
        ("norm", ("emission_measure", "")) ]);
    ("bknpower",
      [ ("norm", ("powerlaw_norm", "ph / (keV cm2 s)"));
        ("BreakE", ("break_energy", "keV"));
        ("PhoIndx1", ("lower_index", ""));
        ("PhoIndx2", ("upper_index", "")) ]);
    ("expmodgauss",
      [ ("norm", ("expmodgauss_norm", ""));
        ("lam", ("lambda", "ct / keV"));
        ("mu", ("mu", "keV"));
        ("sigma", ("sigma", "keV")) ]) ].

Record ArchivedParameter : Type := mkArchivedParameter {
  ap_name : string;
  ap_values : list float;
  ap_error : list float;
  ap_link : Link;
  ap_frozen : bool;
  ap_label : string;
  ap_unit : string;
}.

Definition ArchivedParameter_init (parameter : XspecParameter) (label unit : string)
  : ArchivedParameter :=
  mkArchivedParameter (p_name parameter) (p_values parameter) (p_error parameter)
    (p_link parameter) (p_frozen parameter) label unit.

Record ArchivedComponent : Type := mkArchivedComponent {
  ac_name : string;
  ac_parameter_names : list string;
  ac_parameters : list (string * ArchivedParameter);
}.

(** [ArchivedComponent.base_name] *)
Definition base_name (name : string) : string := PyStr.before_underscore name.

(** The loop of [ArchivedComponent.__init__].  [parameter] is the local
    variable of that name: unbound until the first pass has assigned it,
    and read, for its unit, by a pass whose parameter is not in the
    mapping. *)
Fixpoint archive_parameters (dict : string → result XspecParameter) (name : string)
    (parameter_names : list string) (parameter : option ArchivedParameter)
    (parameters : list (string * ArchivedParameter))
  : result (list (string * ArchivedParameter)) :=
  match parameter_names with
  | [] => Ok parameters
  | parameter_name :: rest =>
      component_parameter ← dict parameter_name;
      mapping ← or_raise KeyError
                  (ODict.lookup (base_name name) COMPONENT_PARAMETER_MAPPING);
      '(label, unit) ←
        match ODict.lookup parameter_name mapping with
        | Some lu => Ok lu
        | None =>
            prev ← or_raise UnboundLocalError parameter;
            Ok (parameter_name, ap_unit prev)
        end;
      let parameter := ArchivedParameter_init component_parameter label unit in
      archive_parameters dict name rest (Some parameter)
        (ODict.insert parameter_name parameter parameters)
  end.

(** [ArchivedComponent(component)], the component being the one filed
    under [key] in the model [model_name] of data group [group]. *)
Definition ArchivedComponent_init (x : Xspec) (group : nat) (model_name key : string)
    (component : Component) : result ArchivedComponent :=
  let dict parameter_name :=
    read_parameter x (mkParamRef group model_name key parameter_name) in
  parameters ← archive_parameters dict (c_name component)
                  (parameterNames component) None [];
  Ok (mkArchivedComponent (c_name component) (parameterNames component) parameters).

(** [ArchivedComponent.free_parameters] *)
Definition free_parameters (c : ArchivedComponent) : list ArchivedParameter :=
  filter (fun p => negb (link_truthy (ap_link p)) && negb (ap_frozen p) = true)
    (ODict.values (ac_parameters c)).

(** *** Naming of repeated components *)

(** [np.unique(a, return_counts=True)]: the distinct names in sorted
    order, each with the number of times it occurs. *)
Definition np_unique_counts (a : list string) : list (string * nat) :=
  let names := merge_sort String.le (remove_dups a) in
  zip names (map (count_occ String.eq_dec a) names).

(** [{n: {'counts': c, 'uses': 0} for n, c in zip(names, counts)}], a
    name going to the pair of its [counts] and [uses]. *)
Definition occurences_of (component_names : list string) : gmap string (nat * nat) :=
  list_to_map (map (fun nc => (nc.1, (nc.2, 0))) (np_unique_counts component_names)).

(** One pass of the naming: the key under which a component is filed, and
    the counters afterwards. *)
Definition instance_name (occurences : gmap string (nat * nat))
    (full_component_name : string)
  : result (string * gmap string (nat * nat)) :=
  let component_name := PyStr.before_underscore full_component_name in
  o ← or_raise KeyError (occurences !! component_name);
  if (1 <? o.1)%nat then
    let occurences := <[component_name := (o.1, S o.2)]> occurences in
    Ok (component_name +:+ PyStr.of_nat (S o.2), occurences)
  else Ok (component_name, occurences).

(** The loop of [_archive_components]. *)
Fixpoint archive_components_loop (x : Xspec) (group : nat) (model : Model)
    (names : list string) (occurences : gmap string (nat * nat))
    (components : list (string * ArchivedComponent))
  : result (list (string * ArchivedComponent)) :=
  match names with
  | [] => Ok components
  | full_component_name :: rest =>
      c ← get_component model full_component_name;
      component ← ArchivedComponent_init x group (m_name model) full_component_name c;
      '(component_name, occurences) ← instance_name occurences full_component_name;
      archive_components_loop x group model rest occurences
        (ODict.insert component_name component components)
  end.

(** [model] is the model of data group [group]. *)
Definition _archive_components (x : Xspec) (group : nat) (model : Model)
  : result (list (string * ArchivedComponent)) :=
  let component_names := map PyStr.before_underscore (componentNames model) in
  archive_components_loop x group model (componentNames model)
    (occurences_of component_names) [].

(** The keys alone, in the order in which the loop assigns them. *)
Fixpoint instance_names_loop (names : list string)
    (occurences : gmap string (nat * nat)) : result (list string) :=
  match names with
  | [] => Ok []
  | full_component_name :: rest =>
      '(component_name, occurences) ← instance_name occurences full_component_name;
      later ← instance_names_loop rest occurences;
      Ok (component_name :: later)
  end.

Definition instance_names (componentNames : list string) : result (list string) :=
  instance_names_loop componentNames
    (occurences_of (map PyStr.before_underscore componentNames)).

(** *** Plotted arrays *)

Record ModelResult : Type := mkModelResult {
  energy_edges : list float;
  energy : list float;
  energy_err : list float;
  data : list float;
  data_err : list float;
  model : list float;
  components : list (string * list float);
}.

(** [l[i]] with Python's reading of a negative index *)
Definition py_getitem {A} (l : list A) (i : Z) : result A :=
  let n := Z.of_nat (length l) in
  if (0 <=? i)%Z then or_raise IndexError (l !! Z.to_nat i)
  else if (0 <=? n + i)%Z then or_raise IndexError (l !! Z.to_nat (n + i))
  else Raise IndexError.

(** The loop over [enumerate(component_names, start=1)] *)
Fixpoint add_components (pd : PlotData) (component_names : list string)
    (component_num : nat) (components : list (string * list float))
  : result (list (string * list float)) :=
  match component_names with
  | [] => Ok components
  | component_name :: rest =>
      comp ← or_raise XspecError (plot_addComp pd !! (component_num - 1));
      add_components pd rest (S component_num)
        (ODict.insert component_name comp components)
  end.

(** The settings of the plot manager are not kept; a unit multiplies an
    array without changing its numbers. *)
Definition gather_model_data (x : Xspec) (model_name : string) (data_group : nat)
  : result ModelResult :=
  pd ← or_raise XspecError (Plot x !! data_group);
  let energy := plot_x pd in
  let energy_err := plot_xErr pd in
  energy_edges ← compute_energy_edges energy energy_err;
  m ← get_model x data_group model_name;
  let component_names :=
    filter (fun n => PyStr.contains "constant" n = false) (componentNames m) in
  components ←
    (if (1 <? length component_names)%nat
     then add_components pd component_names 1 []
     else Ok []);
  Ok (mkModelResult energy_edges energy energy_err
        (plot_y pd) (plot_yErr pd) (plot_model pd) components).

(** *** Archived models *)

Record ArchivedModel : Type := mkArchivedModel {
  am_label : string;
  am_source : nat;
  am_data_group : nat;
  am_name : string;
  am_expression : string;
  am_statistic : float;
  am_data_file : option string;
  am_out_dir : option string;
  am_components : list (string * ArchivedComponent);
  am_response_parameters : list (string * ArchivedParameter);
  am_arrays : ModelResult;
  am_bins : nat;
}.

Fixpoint archive_gain (gain : Gain) (parameter_names : list string)
    (response_parameters : list (string * ArchivedParameter))
  : result (list (string * ArchivedParameter)) :=
  match parameter_names with
  | [] => Ok response_parameters
  | parameter_name :: rest =>
      let new_parameter_name := "gain_" +:+ parameter_name in
      gp ← or_raise KeyError (g_dict gain !! parameter_name);
      let parameter := ArchivedParameter_init gp new_parameter_name "" in
      archive_gain gain rest
        (ODict.insert parameter_name parameter response_parameters)
  end.

Definition _archive_response (x : Xspec) (data_group source : nat)
  : result (list (string * ArchivedParameter)) :=
  spectrum ← or_raise XspecError (AllData x !! data_group);
  gain ← py_getitem (multiresponse spectrum) (Z.of_nat source - 1);
  if isOn gain then archive_gain gain (g_parameterNames gain) [] else Ok [].

(** [ArchivedModel(label, source, data_group, model, data_file, out_dir)].
    The attributes that [setattr] adds repeat entries of the dictionaries
    and are not kept. *)
Definition ArchivedModel_init (x : Xspec) (label : string) (source data_group : nat)
    (model : Model) (data_file : option string) (out_dir : option string)
  : result ArchivedModel :=
  spectrum ← or_raise XspecError (AllData x !! data_group);
  components ← _archive_components x data_group model;
  response_parameters ← _archive_response x data_group source;
  arrays ← gather_model_data x (m_name model) data_group;
  Ok (mkArchivedModel label source data_group (m_name model) (m_expression model)
        (statistic spectrum) data_file out_dir components response_parameters
        arrays (length (energy arrays))).

(** ** The archive *)

(** [Archive.instruments]: instrument name to the models archived for it,
    by model name, in the order of archiving. *)
Record Archive : Type := mkArchive {
  ar_instruments : list (string * list (string * ArchivedModel));
}.

(** [Archive.last_instrument_model] *)
Definition last_instrument_model (a : Archive) (instrument : string)
  : result ArchivedModel :=
  models ← or_raise KeyError (ODict.lookup instrument (ar_instruments a));
  last ← or_raise StopIteration (ODict.last_key models);
  or_raise KeyError (ODict.lookup last models).

Definition duplicate_warning (model_name instrument : string) : string :=
  "WARNING: model '" +:+ model_name +:+ "' already in Archive for instrument "
    +:+ instrument +:+ ". Not doing anything.".

(** [Archive.add_model]: the archive afterwards and the lines printed. *)
Definition add_model (a : Archive) (instrument : string) (model : ArchivedModel)
  : Archive * list string :=
  let instruments :=
    if ODict.mem instrument (ar_instruments a)
    then ar_instruments a
    else ODict.insert instrument [] (ar_instruments a) in
  let models := default [] (ODict.lookup instrument instruments) in
  if negb (ODict.mem (am_name model) models) then
    (mkArchive (ODict.insert instrument
                  (ODict.insert (am_name model) model models) instruments), [])
  else
    (mkArchive instruments, [duplicate_warning (am_name model) instrument]).

(** ** Instruments *)

Record Instrument : Type := mkInstrument {
  i_name : string;
  signal_file : string;
  signal_data_group : nat;
  i_signal_source : nat;
  pileup_file : option string;
  pileup_data_group : option nat;
  pileup_source : option nat;
}.

(** [Instrument.pileup_model_name] *)
Definition pileup_model_name (i : Instrument) : option string :=
  match pileup_file i with
  | Some _ => Some (PyStr.replace " " "" ("pileup" +:+ i_name i))
  | None => None
  end.

(** [Instrument.get_signal_model] *)
Definition get_signal_model (x : Xspec) (i : Instrument) (model_name : string)
  : result Model :=
  get_model x (signal_data_group i) model_name.

(** [Instrument.get_pileup_model]: [None] without a pileup file. *)
Definition get_pileup_model (x : Xspec) (i : Instrument) : result (option Model) :=
  match pileup_model_name i with
  | None => Ok None
  | Some name =>
      group ← or_raise TypeError (pileup_data_group i);
      m ← get_model x group name;
      Ok (Some m)
  end.

(** ** The interface object *)

Record XSPECInterface : Type := mkInterface {
  archive : Archive;
  instruments : list (string * Instrument);
  signal_source : nat;
  signal_groups : list nat;
  pileup_sources : list (nat * string);
  pileup_groups : list nat;
  pileup_expression : string;
  current_model : option string;
  results : option (list (string * ModelResult));
  out_dir : option string;
  config_file : option string;
}.

(** [XSPECInterface.__init__] *)
Definition XSPECInterface_init : XSPECInterface :=
  mkInterface (mkArchive []) [] 1 [] [] [] "" None None None None.

Definition with_archive (a : Archive) (self : XSPECInterface) : XSPECInterface :=
  mkInterface a (instruments self) (signal_source self) (signal_groups self)
    (pileup_sources self) (pileup_groups self) (pileup_expression self)
    (current_model self) (results self) (out_dir self) (config_file self).

Definition with_out_dir (d : string) (self : XSPECInterface) : XSPECInterface :=
  mkInterface (archive self) (instruments self) (signal_source self)
    (signal_groups self) (pileup_sources self) (pileup_groups self)
    (pileup_expression self) (current_model self) (results self) (Some d)
    (config_file self).

Definition with_current_model (n : string) (self : XSPECInterface) : XSPECInterface :=
  mkInterface (archive self) (instruments self) (signal_source self)
    (signal_groups self) (pileup_sources self) (pileup_groups self)
    (pileup_expression self) (Some n) (results self) (out_dir self)
    (config_file self).

Definition with_config_file (f : string) (self : XSPECInterface) : XSPECInterface :=
  mkInterface (archive self) (instruments self) (signal_source self)
    (signal_groups self) (pileup_sources self) (pileup_groups self)
    (pileup_expression self) (current_model self) (results self) (out_dir self)
    (Some f).

(** [XSPECInterface.num_groups] *)
Definition num_groups (self : XSPECInterface) : nat :=
  length (signal_groups self) + length (pileup_groups self).

(** [XSPECInterface.add_instrument] *)
Definition add_instrument (self : XSPECInterface) (name signal_file : string)
    (pileup_file : option string) : XSPECInterface :=
  let group_num := num_groups self + 1 in
  let signal_groups := signal_groups self ++ [group_num] in
  match pileup_file with
  | None =>
      mkInterface (archive self)
        (ODict.insert name
           (mkInstrument name signal_file group_num 1 None None None)
           (instruments self))
        (signal_source self) signal_groups (pileup_sources self)
        (pileup_groups self) (pileup_expression self) (current_model self)
        (results self) (out_dir self) (config_file self)
  | Some pf =>
      let pileup_group := length signal_groups + length (pileup_groups self) + 1 in
      let pileup_sources :=
        pileup_sources self ++ [(length (pileup_sources self) + 2, name)] in
      mkInterface (archive self)
        (ODict.insert name
           (mkInstrument name signal_file group_num 1 (Some pf)
              (Some pileup_group) (Some (length pileup_sources + 1)))
           (instruments self))
        (signal_source self) signal_groups pileup_sources
        (pileup_groups self ++ [pileup_group]) (pileup_expression self)
        (current_model self) (results self) (out_dir self) (config_file self)
  end.

(** *** Archiving the live models *)

(** What [archive_previous] builds: the archive and [newly_archived]. *)
Definition Archiving : Type :=
  Archive * list (string * list (string * ArchivedModel)).

(** One pass of the loop of [archive_previous]. *)
Definition archive_instrument (x : Xspec) (self : XSPECInterface)
    (current : string) (instrument : Instrument) (st : Archiving)
  : result Archiving :=
  match get_signal_model x instrument current with
  | Raise _ => Ok st
  | Ok _ =>
      m ← get_signal_model x instrument current;
      dir ← or_raise AttributeError (out_dir self);
      archived_signal_model ←
        ArchivedModel_init x (i_name instrument) (i_signal_source instrument)
          (signal_data_group instrument) m (Some (signal_file instrument))
          (Some dir);
      let archive := (add_model st.1 (i_name instrument) archived_signal_model).1 in
      let newly_archived :=
        ODict.insert (i_name instrument) [("signal", archived_signal_model)] st.2 in
      match pileup_file instrument with
      | None => Ok (archive, newly_archived)
      | Some pf =>
          pm ← get_pileup_model x instrument;
          pm ← or_raise AttributeError pm;
          source ← or_raise TypeError (pileup_source instrument);
          group ← or_raise TypeError (pileup_data_group instrument);
          archived_pileup_model ←
            ArchivedModel_init x (i_name instrument) source group pm (Some pf)
              (Some dir);
          let archive := (add_model archive (i_name instrument) archived_pileup_model).1 in
          Ok (archive,
              ODict.insert (i_name instrument) [("pileup", archived_pileup_model)]
                newly_archived)
      end
  end.

(** [XSPECInterface.archive_previous]: the interface afterwards and the
    dictionary returned.  What is printed is not kept. *)
Definition archive_previous (self : XSPECInterface) (x : Xspec)
  : result (XSPECInterface * list (string * list (string * ArchivedModel))) :=
  match current_model self, results self with
  | Some current, Some _ =>
      st ← for_each (ODict.values (instruments self))
             (archive_instrument x self current) (archive self, []);
      Ok (with_archive st.1 self, st.2)
  | _, _ => Ok (self, [])
  end.

(** ** Model assembly *)

(** *** Parameter limits *)

(** The pass of the loop over [conf_dict] for one key. *)
Definition limits_parameter (current : string) (tie_data_groups : bool)
    (conf_dict : list (string * list (string * float)))
    (group_num : nat) (component_name parameter_name : string)
    (st : Xspec * list (string * list (string * float)))
  : result (Xspec * list (string * list (string * float))) :=
  let r := mkParamRef group_num current component_name parameter_name in
  if has_parameter st.1 r then
    parameter ← get_parameter st.1 r;
    if (1 <? group_num)%nat && tie_data_groups then Ok st
    else
      entry ← or_raise KeyError (ODict.lookup parameter_name conf_dict);
      let limits := ODict.values entry in
      Ok (set_values parameter limits st.1, ODict.insert parameter_name entry st.2)
  else Ok st.

(** The pass of the loop that unties, for one parameter name. *)
Definition untie_parameter (current : string) (tie_data_groups : bool)
    (group_num : nat) (component_name parameter_name : string) (x : Xspec)
  : result Xspec :=
  parameter ← get_parameter x (mkParamRef group_num current component_name parameter_name);
  if negb tie_data_groups then Ok (set_link parameter (LinkExpr "") x) else Ok x.

Definition limits_component (current : string) (tie_data_groups : bool)
    (conf_dict : list (string * list (string * float)))
    (group_num : nat) (model : Model) (component_name : string)
    (st : Xspec * list (string * list (string * float)))
  : result (Xspec * list (string * list (string * float))) :=
  component ← get_component model component_name;
  st ← for_each (ODict.keys conf_dict)
         (limits_parameter current tie_data_groups conf_dict group_num component_name)
         st;
  x ← for_each (parameterNames component)
        (untie_parameter current tie_data_groups group_num component_name) st.1;
  Ok (x, st.2).

Definition limits_instrument (current : string) (tie_data_groups : bool)
    (conf_dict : list (string * list (string * float)))
    (instrument : Instrument)
    (st : Xspec * list (string * list (string * float)))
  : result (Xspec * list (string * list (string * float))) :=
  let group_num := signal_data_group instrument in
  model ← get_model st.1 group_num current;
  for_each (componentNames model)
    (limits_component current tie_data_groups conf_dict group_num model) st.

(** The loops of [_set_parameter_limits], the configuration read. *)
Definition apply_parameter_limits (self : XSPECInterface)
    (conf_dict : list (string * list (string * float)))
    (tie_data_groups : bool) (x : Xspec)
  : result (Xspec * list (string * list (string * float))) :=
  current ← or_raise AttributeError (current_model self);
  for_each (ODict.values (instruments self))
    (limits_instrument current tie_data_groups conf_dict) (x, []).

(** *** Links to the pileup models *)

(** [signal_model.__dict__[c].__dict__[p].link = parameter], [parameter]
    being the parameter [p] of the component [c] of the pileup model. *)
Definition link_parameter (current : string) (signal_group : nat)
    (signal_model : Model) (pileup_group : nat) (pileup_name : string)
    (component_name parameter_name : string) (x : Xspec) : result Xspec :=
  parameter ← get_parameter x
                (mkParamRef pileup_group pileup_name component_name parameter_name);
  _ ← get_component signal_model component_name;
  target ← get_parameter x
             (mkParamRef signal_group current component_name parameter_name);
  Ok (set_link target (LinkParam parameter) x).

Definition link_component (current : string) (signal_group : nat)
    (signal_model : Model) (pileup_group : nat) (pileup_name : string)
    (pileup_model : Model) (component_name : string) (x : Xspec) : result Xspec :=
  component ← get_component pileup_model component_name;
  for_each (parameterNames component)
    (link_parameter current signal_group signal_model pileup_group pileup_name
       component_name) x.

(** The state of the first loop: the engine, the local [ref_model] once
    it is bound, and [no_pileup_instruments]. *)
Definition Linking : Type := Xspec * option Model * list Instrument.

Definition link_instrument (current : string) (instrument : Instrument)
    (st : Linking) : result Linking :=
  let '(x, ref_model, no_pileup_instruments) := st in
  signal_model ← get_signal_model x instrument current;
  pileup_model ← get_pileup_model x instrument;
  match pileup_model with
  | Some pm =>
      pileup_group ← or_raise TypeError (pileup_data_group instrument);
      pileup_name ← or_raise TypeError (pileup_model_name instrument);
      x ← for_each (componentNames pm)
            (link_component current (signal_data_group instrument) signal_model
               pileup_group pileup_name pm) x;
      Ok (x, Some pm, no_pileup_instruments)
  | None => Ok (x, ref_model, no_pileup_instruments ++ [instrument])
  end.

Definition zero_parameter (current : string) (signal_group : nat)
    (component_name parameter_name : string) (x : Xspec) : result Xspec :=
  parameter ← get_parameter x
                (mkParamRef signal_group current component_name parameter_name);
  Ok (set_frozen parameter true (set_values parameter ZERO_VALUES x)).

Definition zero_component (current : string) (signal_group : nat)
    (signal_model : Model) (component_name : string) (x : Xspec) : result Xspec :=
  component ← get_component signal_model component_name;
  for_each (parameterNames component)
    (zero_parameter current signal_group component_name) x.

Definition zero_instrument (current : string) (ref_model : option Model)
    (instrument : Instrument) (x : Xspec) : result Xspec :=
  signal_model ← get_signal_model x instrument current;
  ref ← or_raise UnboundLocalError ref_model;
  for_each (componentNames ref)
    (zero_component current (signal_data_group instrument) signal_model) x.

(** [XSPECInterface._set_pileup_links] *)
Definition _set_pileup_links (self : XSPECInterface) (x : Xspec) : result Xspec :=
  current ← or_raise AttributeError (current_model self);
  st ← for_each (ODict.values (instruments self)) (link_instrument current)
         (x, None, []);
  let '(x, ref_model, no_pileup_instruments) := st in
  for_each no_pileup_instruments (zero_instrument current ref_model) x.

(** *** Migration from the archive *)

Definition migrate_parameter (current : string) (freeze_previous : bool)
    (group_num : nat) (old_component : ArchivedComponent)
    (parameter_name : string) (x : Xspec) : result Xspec :=
  match ODict.lookup parameter_name (ac_parameters old_component) with
  | Some old_parameter =>
      parameter ← get_parameter x
                    (mkParamRef group_num current (ac_name old_component)
                       parameter_name);
      if link_truthy (ap_link old_parameter) then Ok x
      else
        let x := set_values parameter (ap_values old_parameter) x in
        Ok (set_frozen parameter (ap_frozen old_parameter || freeze_previous) x)
  | None => Ok x
  end.

Definition migrate_component (current : string) (freeze_previous : bool)
    (group_num : nat) (current_model : Model) (old_component : ArchivedComponent)
    (x : Xspec) : result Xspec :=
  if String.eqb (ac_name old_component) "constant" && (group_num =? 1)%nat then Ok x
  else
    new_component ← get_component current_model (ac_name old_component);
    for_each (parameterNames new_component)
      (migrate_parameter current freeze_previous group_num old_component) x.

(** The state of the loop over the signal groups: the engine and what
    the iterator over [archived_models] has still to give. *)
Definition migrate_group (current : string) (freeze_previous : bool)
    (archived_models : list (string * ArchivedModel)) (group_num : nat)
    (st : Xspec * list string) : result (Xspec * list string) :=
  current_model ← get_model st.1 group_num current;
  match st.2 with
  | [] => Raise StopIteration
  | k :: archived_models_it =>
      archived_model ← or_raise KeyError (ODict.lookup k archived_models);
      x ← for_each (ODict.values (am_components archived_model))
            (migrate_component current freeze_previous group_num current_model)
            st.1;
      Ok (x, archived_models_it)
  end.

Definition migrate (current : string) (freeze_previous : bool)
    (archived_models : list (string * ArchivedModel)) (signal_groups : list nat)
    (x : Xspec) : result Xspec :=
  match archived_models with
  | [] => Ok x
  | _ :: _ =>
      st ← for_each signal_groups
             (migrate_group current freeze_previous archived_models)
             (x, ODict.keys archived_models);
      Ok st.1
  end.

(** *** The constant factors *)

(** [xspec.AllModels(group_num, current).constant.factor] *)
Definition constant_factor (x : Xspec) (current : string) (group_num : nat)
  : result ParamRef :=
  m ← get_model x group_num current;
  _ ← or_raise AttributeError (m_dict m !! "constant");
  let r := mkParamRef group_num current "constant" "factor" in
  if has_parameter x r then Ok r else Raise AttributeError.

Definition free_factor (current : string) (first_group group_num : nat) (x : Xspec)
  : result Xspec :=
  if bool_decide (group_num ≠ first_group) then
    factor ← constant_factor x current group_num;
    let x := set_value factor 1.0%float x in
    factor ← constant_factor x current group_num;
    let x := set_link factor (LinkExpr "") x in
    factor ← constant_factor x current group_num;
    Ok (set_frozen factor false x)
  else Ok x.

Definition constant_convention (current : string) (signal_groups : list nat)
    (x : Xspec) : result Xspec :=
  first_group ← or_raise IndexError (head signal_groups);
  m ← get_model x first_group current;
  if bool_decide ("constant" ∈ componentNames m) then
    factor ← constant_factor x current first_group;
    let x := set_link factor (LinkExpr "") x in
    factor ← constant_factor x current first_group;
    let x := set_frozen factor true x in
    for_each signal_groups (free_factor current first_group) x
  else Ok x.

(** *** Adding a component *)

(** The most recent model archived for each instrument, and the
    expression of the one collected last. *)
Fixpoint recent_models (instruments : list (string * list (string * ArchivedModel)))
    (keys : list string) (archived_models : list (string * ArchivedModel))
    (last_k : option string)
  : result (list (string * ArchivedModel) * option string) :=
  match keys with
  | [] => Ok (archived_models, last_k)
  | k :: rest =>
      models ← or_raise KeyError (ODict.lookup k instruments);
      model_name ← or_raise StopIteration (ODict.last_key models);
      m ← or_raise KeyError (ODict.lookup model_name models);
      recent_models instruments rest (ODict.insert k m archived_models) (Some k)
  end.

Section Engine.

(** The two collaborators outside this module: the engine's construction
    of a model from an expression, a name and a source, and the loader of
    the limits file, which gives for a parameter name its named
    settings. *)
Variable xspec_Model : string → string → nat → Xspec → result (Model * Xspec).
Variable XSPECConfiguration : string → result (list (string * list (string * float))).

(** [XSPECInterface._set_parameter_limits] *)
Definition _set_parameter_limits (self : XSPECInterface) (config_file : string)
    (tie_data_groups : bool) (x : Xspec)
  : result (XSPECInterface * Xspec * list (string * list (string * float))) :=
  let self := with_config_file config_file self in
  conf_dict ← XSPECConfiguration config_file;
  st ← apply_parameter_limits self conf_dict tie_data_groups x;
  Ok (self, st.1, st.2).

(** [XSPECInterface.add_component].  The directory and the log file are
    not kept. *)
Definition add_component (self : XSPECInterface) (model_name expression : string)
    (parameter_limits_file : string) (out_dir : string)
    (freeze_previous tie_data_groups : bool) (x : Xspec)
  : result (XSPECInterface * Xspec * Model) :=
  let self := with_out_dir out_dir self in
  archived ← archive_previous self x;
  let self := with_current_model model_name archived.1 in
  let current := model_name in
  recent ←
    match ar_instruments (archive self) with
    | [] => Ok ([], "")
    | _ :: _ =>
        r ← recent_models (ar_instruments (archive self))
              (ODict.keys (ar_instruments (archive self))) [] None;
        k ← or_raise UnboundLocalError r.2;
        m ← or_raise KeyError (ODict.lookup k r.1);
        Ok (r.1, am_expression m)
    end;
  let archived_models := recent.1 in
  let old_expression := recent.2 in
  new_expression ←
    _configure_new_expression (pileup_expression self) expression old_expression;
  built ← xspec_Model new_expression current (signal_source self) x;
  let model := built.1 in
  let x := built.2 in
  limited ← _set_parameter_limits self parameter_limits_file tie_data_groups x;
  let self := limited.1.1 in
  let x := limited.1.2 in
  x ← (if PyStr.truthy (pileup_expression self)
       then _set_pileup_links self x else Ok x);
  x ← migrate current freeze_previous archived_models (signal_groups self) x;
  x ← constant_convention current (signal_groups self) x;
  Ok (self, x, model).

End Engine.

(** How often a base name occurs among the base names of [l]. *)
Abbreviation occurs b l := (count_occ String.eq_dec (map PyStr.before_underscore l) b).

(** The key the naming gives to the component at place [i]. *)
Definition expected_name (names : list string) (i : nat) (full : string) : string :=
  let b := PyStr.before_underscore full in
  if (1 <? occurs b names)%nat
  then b +:+ PyStr.of_nat (occurs b (take (S i) names))
  else b.

(** The counters once the components [pre] have been named. *)
Definition counters_after (all pre : list string)
    (occ : gmap string (nat * nat)) : Prop :=
  ∀ b, b ∈ map PyStr.before_underscore all →
    occ !! b = Some (occurs b all, if (1 <? occurs b all)%nat then occurs b pre else 0).

(** ** Vocabulary for the engine's state *)

(** The engine after a sequence of setter calls. *)
Definition replay (cs : list Call) (x : Xspec) : Xspec :=
  foldl (fun x c => send c x) x cs.

(** What a sequence of calls makes of the parameter object at [r]. *)
Definition settle (r : ParamRef) (cs : list Call) (p : XspecParameter)
  : XspecParameter :=
  foldl (fun p c => if decide (call_target c = r) then call_effect c p else p) p cs.

(** Setter calls never add or remove a model or a parameter object:
    the two engines have the same models and the same places. *)
Definition same_frame (x0 x : Xspec) : Prop :=
  AllModels x = AllModels x0
  ∧ AllData x = AllData x0
  ∧ Plot x = Plot x0
  ∧ ∀ r, has_parameter x r = has_parameter x0 r.

(** A call that leaves the field [proj] of a parameter alone, and one
    that sets it to [v]. *)
Definition keeps {B} (proj : XspecParameter → B) (c : Call) : Prop :=
  ∀ q, proj (call_effect c q) = proj q.
Definition sets {B} (proj : XspecParameter → B) (v : B) (c : Call) : Prop :=
  ∀ q, proj (call_effect c q) = v.

(** A run from [x] to [x'] whose effect on the engine is a sequence of
    setter calls, the calls in it being exactly those that [Q] holds of. *)
Definition emits (x x' : Xspec) (Q : Call → Prop) : Prop :=
  ∃ cs, x' = replay cs x ∧ ∀ c, c ∈ cs ↔ Q c.

(** *** The calls of the parameter-limit step *)

(** The call that sets the limits of the parameter [p] of the component
    [cn] of the data group [g], when the step makes it. *)
Definition limit_call (x0 : Xspec) (current : string) (tie : bool)
    (conf_dict : list (string * list (string * float)))
    (g : nat) (cn p : string) (c : Call) : Prop :=
  has_parameter x0 (mkParamRef g current cn p) = true
  ∧ (1 <? g)%nat && tie = false
  ∧ ∃ entry, ODict.lookup p conf_dict = Some entry
      ∧ c = SetValues (mkParamRef g current cn p) (ODict.values entry).

Definition untie_call (current : string) (tie : bool)
    (g : nat) (cn p : string) (c : Call) : Prop :=
  tie = false ∧ c = SetLink (mkParamRef g current cn p) (LinkExpr "").

Definition component_limit_calls (x0 : Xspec) (current : string) (tie : bool)
    (conf_dict : list (string * list (string * float)))
    (g : nat) (m : Model) (cn : string) (c : Call) : Prop :=
  ∃ comp, m_dict m !! cn = Some comp
    ∧ ((∃ p, p ∈ ODict.keys conf_dict ∧ limit_call x0 current tie conf_dict g cn p c)
       ∨ (∃ p, p ∈ parameterNames comp ∧ untie_call current tie g cn p c)).

Definition instrument_limit_calls (x0 : Xspec) (current : string) (tie : bool)
    (conf_dict : list (string * list (string * float)))
    (i : Instrument) (c : Call) : Prop :=
  ∃ m, AllModels x0 !! (signal_data_group i, current) = Some m
    ∧ ∃ cn, cn ∈ componentNames m
        ∧ component_limit_calls x0 current tie conf_dict (signal_data_group i) m cn c.

(** *** The calls of the pileup-linking step *)

(** The calls of the first loop for the instrument [i]: each parameter of
    its pileup model becomes the link of the parameter of the same
    component and name of its signal model. *)
Definition link_calls (x0 : Xspec) (current : string) (i : Instrument) (c : Call)
  : Prop :=
  ∃ pm pg pname cn comp p,
    get_pileup_model x0 i = Ok (Some pm)
    ∧ pileup_data_group i = Some pg
    ∧ pileup_model_name i = Some pname
    ∧ cn ∈ componentNames pm
    ∧ m_dict pm !! cn = Some comp
    ∧ p ∈ parameterNames comp
    ∧ c = SetLink (mkParamRef (signal_data_group i) current cn p)
            (LinkParam (mkParamRef pg pname cn p)).

(** The calls of the second loop for the instrument [i]. *)
Definition zero_calls (x0 : Xspec) (current : string) (ref : Model)
    (i : Instrument) (c : Call) : Prop :=
  ∃ sm cn comp p,
    AllModels x0 !! (signal_data_group i, current) = Some sm
    ∧ cn ∈ componentNames ref
    ∧ m_dict sm !! cn = Some comp
    ∧ p ∈ parameterNames comp
    ∧ (c = SetValues (mkParamRef (signal_data_group i) current cn p) ZERO_VALUES
       ∨ c = SetFrozen (mkParamRef (signal_data_group i) current cn p) true).

(** *** The calls of the migration *)

(** A call of the migration for the data group [g], paired with the
    archived model filed under [k]: the settings or the frozen flag of an
    archived parameter without a link go to the parameter of the same
    component and name. *)
Definition migration_call (x0 : Xspec) (current : string) (freeze_previous : bool)
    (archived_models : list (string * ArchivedModel))
    (g : nat) (k : string) (c : Call) : Prop :=
  ∃ m am oc nc pn op,
    AllModels x0 !! (g, current) = Some m
    ∧ ODict.lookup k archived_models = Some am
    ∧ oc ∈ ODict.values (am_components am)
    ∧ String.eqb (ac_name oc) "constant" && (g =? 1)%nat = false
    ∧ m_dict m !! ac_name oc = Some nc
    ∧ pn ∈ parameterNames nc
    ∧ ODict.lookup pn (ac_parameters oc) = Some op
    ∧ link_truthy (ap_link op) = false
    ∧ (c = SetValues (mkParamRef g current (ac_name oc) pn) (ap_values op)
       ∨ c = SetFrozen (mkParamRef g current (ac_name oc) pn)
               (ap_frozen op || freeze_previous)).

(** ** A small session, for the examples

    Two instruments [FPMA] and [FPMB] and an engine whose signal models
    have a [constant] with its [factor] and a [vapec] with [kT] and
    [norm]; the parameters of a data group other than the first start out
    linked.  In the pileup variant [FPMA] has a pileup file, the pileup
    model is an [expmodgauss] and the signal models start with one. *)

Module Example.

Definition parameter (name : string) (index : nat) (link : Link) : XspecParameter :=
  mkParameter name [1.0; 0.125; 0.0; 0.0; 100.0; 100.0]%float [0.0; 0.0]%float
    link false index "".

Definition constant : Component := mkComponent "constant" ["factor"].
Definition vapec : Component := mkComponent "vapec" ["kT"; "norm"].
Definition expmodgauss : Component := mkComponent "expmodgauss" ["norm"; "lam"].

Definition shape (name expression : string) : Model :=
  mkModel name expression ["constant"; "vapec"]
    {[ "constant" := constant; "vapec" := vapec ]} 3.

Definition pileup_shape (name : string) : Model :=
  mkModel name "expmodgauss" ["expmodgauss"] {[ "expmodgauss" := expmodgauss ]} 2.

Definition piled_shape (name expression : string) : Model :=
  mkModel name expression ["expmodgauss"; "constant"; "vapec"]
    {[ "expmodgauss" := expmodgauss; "constant" := constant; "vapec" := vapec ]} 5.

(** The places of the parameters of the model [m] of data group [g]. *)
Definition places (g : nat) (m : Model) : list ParamRef :=
  cn ← componentNames m;
  comp ← option_list (m_dict m !! cn);
  p ← parameterNames comp;
  [mkParamRef g (m_name m) cn p].

(** The engine with the model [m] for the data group [g]. *)
Definition install (g : nat) (m : Model) (link : Link) (x : Xspec) : Xspec :=
  mkXspec (<[(g, m_name m) := m]> (AllModels x))
    (foldr (fun ir ps => <[ir.2 := parameter (ref_parameter ir.2) ir.1 link]> ps)
       (params x) (zip (seq 1 (length (places g m))) (places g m)))
    (AllData x) (Plot x) (calls x).

Definition plot : PlotData :=
  mkPlotData [1.0; 2.0; 3.0]%float [0.5; 0.5; 0.5]%float [4.0; 5.0; 6.0]%float
    [0.25; 0.25; 0.25]%float [4.5; 5.5; 6.5]%float [].

Definition spectrum : Spectrum := mkSpectrum 12.5%float [mkGain false [] ∅].

(** The engine once the data are read. *)
Definition loaded : Xspec :=
  mkXspec ∅ ∅ (<[1 := spectrum]> (<[2 := spectrum]> ∅))
    (<[1 := plot]> (<[2 := plot]> ∅)) [].

(** The engine builds the model for the two signal groups. *)
Definition xspec_Model (expression name : string) (source : nat) (x : Xspec)
  : result (Model * Xspec) :=
  Ok (shape name expression,
      install 2 (shape name expression) (LinkExpr "= p1")
        (install 1 (shape name expression) (LinkExpr "") x)).

Definition kT_limits : list (string * float) :=
  [("value", 1.0); ("delta", 0.125); ("min", 0.25); ("bot", 0.25);
   ("top", 5.0); ("max", 5.0)]%float.

Definition XSPECConfiguration (config_file : string)
  : result (list (string * list (string * float))) :=
  Ok [("kT", kT_limits)].

(** Two instruments without pileup files. *)
Definition session : XSPECInterface :=
  add_instrument (add_instrument XSPECInterface_init "FPMA" "a.pha" None)
    "FPMB" "b.pha" None.

Definition FPMA : Instrument := mkInstrument "FPMA" "a.pha" 1 1 None None None.
Definition FPMB : Instrument := mkInstrument "FPMB" "b.pha" 2 1 None None None.

(** The engine with the model [m1] live for both groups. *)
Definition live : Xspec :=
  install 2 (shape "m1" "constant*vapec") (LinkExpr "= p1")
    (install 1 (shape "m1" "constant*vapec") (LinkExpr "") loaded).

Definition kT (g : nat) : ParamRef := mkParamRef g "m1" "vapec" "kT".
Definition norm (g : nat) : ParamRef := mkParamRef g "m1" "vapec" "norm".
Definition factor (g : nat) : ParamRef := mkParamRef g "m1" "constant" "factor".

(** The first instrument with a pileup file, the second without: the
    signal groups are 1 and 3, the pileup group is 2. *)
Definition pileup_session : XSPECInterface :=
  add_instrument (add_instrument XSPECInterface_init "FPMA" "a.pha" (Some "ap.pha"))
    "FPMB" "b.pha" None.

Definition piled_FPMA : Instrument :=
  mkInstrument "FPMA" "a.pha" 1 1 (Some "ap.pha") (Some 2) (Some 2).
Definition piled_FPMB : Instrument := mkInstrument "FPMB" "b.pha" 3 1 None None None.

Definition piled_live : Xspec :=
  install 3 (piled_shape "m1" "expmodgauss + constant*vapec") (LinkExpr "= p1")
    (install 2 (pileup_shape "pileupFPMA") (LinkExpr "")
       (install 1 (piled_shape "m1" "expmodgauss + constant*vapec") (LinkExpr "")
          loaded)).

(** The session after [m1] has been added and fitted. *)
Definition fitted_session : XSPECInterface :=
  mkInterface (archive session) (instruments session) (signal_source session)
    (signal_groups session) (pileup_sources session) (pileup_groups session)
    (pileup_expression session) (Some "m1") (Some []) (Some "out") (Some "limits").

(** A snapshot of [m1] in which [kT] was fitted and [norm] was linked. *)
Definition archived_vapec : ArchivedComponent :=
  mkArchivedComponent "vapec" ["kT"; "norm"]
    [ ("kT", mkArchivedParameter "kT" [2.5; 0.125; 0.25; 0.25; 5.0; 5.0]%float
               [2.0; 3.0]%float (LinkExpr "") false "temperature" "keV");
      ("norm", mkArchivedParameter "norm" [7.0; 0.125; 0.0; 0.0; 100.0; 100.0]%float
                 [0.0; 0.0]%float (LinkExpr "= p3") true "emission_measure" "") ].

Definition archived_constant : ArchivedComponent :=
  mkArchivedComponent "constant" ["factor"]
    [ ("factor", mkArchivedParameter "factor" [0.5; 0.125; 0.0; 0.0; 100.0; 100.0]%float
                   [0.0; 0.0]%float (LinkExpr "") false "factor" "") ].

Definition archived (label : string) (g : nat) : ArchivedModel :=
  mkArchivedModel label 1 g "m1" "constant*vapec" 12.5%float None None
    [("constant", archived_constant); ("vapec", archived_vapec)] []
    (mkModelResult [] [] [] [] [] [] []) 0.

End Example.

(* ===================================================================== *)
(** * Properties *)
(* ===================================================================== *)

(** ** The definitions at work *)

Example ex_first : _configure_new_expression "" "const*vapec" "" = Ok "constant*vapec".
Proof. reflexivity. Qed.

Example ex_second :
  _configure_new_expression "" "bknpower" "constant*vapec"
  = Ok " constant*(vapec + bknpower)".
Proof. reflexivity. Qed.

Example ex_third :
  _configure_new_expression "" "vapec" "constant*(vapec + bknpower)"
  = Ok " constant*(vapec + bknpower + vapec)".
Proof. reflexivity. Qed.

Example ex_edges :
  compute_energy_edges [1.0; 2.0; 3.0]%float [0.5; 0.5; 0.5]%float
  = Ok [0.5; 1.5; 2.5; 3.5]%float.
Proof. reflexivity. Qed.

Example ex_names :
  instance_names ["constant"; "vapec"; "vapec_3"; "bknpower"]
  = Ok ["constant"; "vapec1"; "vapec2"; "bknpower"].
Proof. vm_compute. reflexivity. Qed.

Example ex_archive_previous :
  ∃ self' newly,
    archive_previous Example.fitted_session Example.live = Ok (self', newly)
    ∧ ODict.keys newly = ["FPMA"; "FPMB"]
    ∧ ODict.keys (ar_instruments (archive self')) = ["FPMA"; "FPMB"]
    ∧ (m ← last_instrument_model (archive self') "FPMB";
       Ok (am_name m, am_expression m, ODict.keys (am_components m),
           energy_edges (am_arrays m), am_bins m))
      = Ok ("m1", "constant*vapec", ["constant"; "vapec"],
            [0.5; 1.5; 2.5; 3.5]%float, 3).
Proof. eexists _, _. split; [by vm_compute|]. repeat split; by vm_compute. Qed.

Example ex_session_groups :
  signal_groups Example.session = [1; 2]
  ∧ ODict.values (instruments Example.session) = [Example.FPMA; Example.FPMB]
  ∧ signal_groups Example.pileup_session = [1; 3]
  ∧ ODict.values (instruments Example.pileup_session)
    = [Example.piled_FPMA; Example.piled_FPMB]
  ∧ pileup_model_name Example.piled_FPMA = Some "pileupFPMA".
Proof. repeat split; reflexivity. Qed.

(** ** Strings *)

Lemma append_nil_l (a : string) : "" +:+ a = a.
Proof. reflexivity. Qed.

Lemma append_cons (x : ascii) (a b : string) :
  String x a +:+ b = String x (a +:+ b).
Proof. reflexivity. Qed.

Lemma append_assoc (a b c : string) : (a +:+ b) +:+ c = a +:+ (b +:+ c).
Proof.
  induction a as [|x a IH]; [reflexivity|].
  rewrite !append_cons. by f_equal.
Qed.

Lemma append_nil_r (a : string) : a +:+ "" = a.
Proof.
  induction a as [|x a IH]; [reflexivity|].
  rewrite append_cons. by f_equal.
Qed.

Lemma truthy_true (s : string) : PyStr.truthy s = true ↔ s ≠ "".
Proof. destruct s; simpl; split; intros; congruence. Qed.

Lemma contains_tail (sub : string) (c : ascii) (s : string) :
  PyStr.contains sub (String c s) = false →
  PyStr.strip_prefix sub (String c s) = None ∧ PyStr.contains sub s = false.
Proof.
  cbn [PyStr.contains].
  destruct (PyStr.strip_prefix sub (String c s)); [discriminate | auto].
Qed.

Lemma replace_absent (old new s : string) :
  PyStr.contains old s = false → PyStr.replace old new s = s.
Proof.
  unfold PyStr.replace.
  induction s as [|c s IH]; intros H; [reflexivity|].
  apply contains_tail in H as [Hp Hs].
  cbn [PyStr.replace_from]. rewrite Hp, (IH Hs). reflexivity.
Qed.

Lemma strip_prefix_ci_sound (lit s rest : string) :
  PyStr.strip_prefix_ci lit s = Some rest →
  ∃ w, s = w +:+ rest ∧ same_fold lit w.
Proof.
  revert s. induction lit as [|a lit IH]; intros s H.
  - exists "". simpl in H. injection H as ->. by split.
  - destruct s as [|b s]; [discriminate|]. simpl in H.
    destruct (Ascii.eqb_spec (PyStr.lower a) (PyStr.lower b)) as [E|]; [|discriminate].
    destruct (IH _ H) as (w & -> & Hw).
    exists (String b w). split; [reflexivity|].
    unfold same_fold in *. simpl. by rewrite E, Hw.
Qed.

Lemma strip_last_sound (c : ascii) (s r : string) :
  PyStr.strip_last c s = Some r → s = r +:+ String c "".
Proof.
  revert r. induction s as [|a s IH]; intros r H; [discriminate|].
  destruct s as [|b s].
  - simpl in H. destruct (Ascii.eqb_spec a c); [|discriminate].
    injection H as <-. by subst.
  - change (PyStr.strip_last c (String a (String b s)))
      with (match PyStr.strip_last c (String b s) with
            | Some r => Some (String a r) | None => None end) in H.
    destruct (PyStr.strip_last c (String b s)) as [r'|]; [|discriminate].
    injection H as <-. rewrite append_cons. by rewrite <- (IH r').
Qed.

Lemma inner_of_sound close rest i :
  Parse.inner_of close rest = Some i → rest = i +:+ closing close ∧ i ≠ "".
Proof.
  unfold Parse.inner_of. destruct close as [c|]; simpl.
  - destruct (PyStr.strip_last c rest) as [r|] eqn:E; [|discriminate].
    destruct (PyStr.truthy r) eqn:T; [|discriminate].
    intros [= <-]. split; [by apply strip_last_sound | by apply truthy_true].
  - destruct (PyStr.truthy rest) eqn:T; [|discriminate].
    intros [= <-]. split; [by rewrite append_nil_r | by apply truthy_true].
Qed.

Lemma scan_here lit close acc s rest i :
  PyStr.strip_prefix_ci lit s = Some rest →
  Parse.inner_of close rest = Some i →
  ∃ w, acc +:+ s = acc +:+ w +:+ i +:+ closing close ∧ same_fold lit w ∧ i ≠ "".
Proof.
  intros E Ei.
  destruct (strip_prefix_ci_sound _ _ _ E) as (w & Hs & Hw).
  destruct (inner_of_sound _ _ _ Ei) as [-> Hi].
  exists w. by rewrite <- Hs.
Qed.

Lemma scan_sound lit close acc s r :
  Parse.scan lit close acc s = Some r →
  ∃ w, acc +:+ s = Parse.outer r +:+ w +:+ Parse.inner r +:+ closing close
       ∧ same_fold lit w ∧ Parse.inner r ≠ "".
Proof.
  revert acc. induction s as [|c s IH]; intros acc H.
  - simpl in H.
    destruct (PyStr.strip_prefix_ci lit "") as [rest|] eqn:E; [|discriminate].
    destruct (Parse.inner_of close rest) as [i|] eqn:Ei; [|discriminate].
    injection H as <-. simpl. by eapply scan_here.
  - cbn [Parse.scan] in H.
    destruct (PyStr.strip_prefix_ci lit (String c s)) as [rest|] eqn:E.
    + destruct (Parse.inner_of close rest) as [i|] eqn:Ei.
      * injection H as <-. simpl. by eapply scan_here.
      * destruct (IH _ H) as (w & Hs & Hw). exists w.
        by rewrite append_assoc in Hs.
    + destruct (IH _ H) as (w & Hs & Hw). exists w.
      by rewrite append_assoc in Hs.
Qed.

Lemma scan_outer lit close acc s r :
  Parse.scan lit close acc s = Some r → acc ≠ "" → Parse.outer r ≠ "".
Proof.
  revert acc. induction s as [|c s IH]; intros acc H Hacc.
  - simpl in H.
    destruct (PyStr.strip_prefix_ci lit "") as [rest|]; [|discriminate].
    destruct (Parse.inner_of close rest); [|discriminate]. by injection H as <-.
  - cbn [Parse.scan] in H.
    assert (acc +:+ String c "" ≠ "") by (by destruct acc).
    destruct (PyStr.strip_prefix_ci lit (String c s)) as [rest|]; [|by eapply IH].
    destruct (Parse.inner_of close rest); [by injection H as <- | by eapply IH].
Qed.

(** What a successful [parse.parse] says about the string: it is
    [outer], the literal in some spelling, [inner] and the closing text, with
    both fields non-empty. *)
Lemma parse2_sound lit close s r :
  Parse.parse2 lit close s = Some r →
  ∃ w, s = Parse.outer r +:+ w +:+ Parse.inner r +:+ closing close
       ∧ same_fold lit w ∧ Parse.outer r ≠ "" ∧ Parse.inner r ≠ "".
Proof.
  destruct s as [|c s]; [discriminate|]. simpl. intros H.
  destruct (scan_sound _ _ _ _ _ H) as (w & Hs & Hw & Hi).
  exists w. repeat split; try done. by eapply scan_outer.
Qed.

Lemma same_fold_nil (w : string) : same_fold "" w → w = "".
Proof. destruct w; [done|]. by intros [=]. Qed.

Lemma same_fold_cons (a : ascii) (lit w : string) :
  same_fold (String a lit) w →
  ∃ b w', w = String b w' ∧ PyStr.lower a = PyStr.lower b ∧ same_fold lit w'.
Proof.
  destruct w as [|b w']; [by intros [=]|]. intros [= Hab Hrest]. by exists b, w'.
Qed.

Lemma strip_prefix_ci_complete (lit w rest : string) :
  same_fold lit w → PyStr.strip_prefix_ci lit (w +:+ rest) = Some rest.
Proof.
  revert w. induction lit as [|a lit IH]; intros w H.
  - by rewrite (same_fold_nil _ H).
  - apply same_fold_cons in H as (b & w' & -> & Hab & H).
    rewrite append_cons. simpl. rewrite Hab, Ascii.eqb_refl. by apply IH.
Qed.

Lemma strip_last_complete (c : ascii) (i : string) :
  PyStr.strip_last c (i +:+ String c "") = Some i.
Proof.
  induction i as [|a i IH].
  - simpl. by rewrite Ascii.eqb_refl.
  - rewrite append_cons.
    change (PyStr.strip_last c (String a (i +:+ String c "")))
      with (match i +:+ String c "" with
            | "" => if Ascii.eqb a c then Some "" else None
            | String _ _ =>
                match PyStr.strip_last c (i +:+ String c "") with
                | Some r => Some (String a r) | None => None end
            end).
    rewrite IH. by destruct i.
Qed.

Lemma inner_of_complete close i :
  i ≠ "" → Parse.inner_of close (i +:+ closing close) = Some i.
Proof.
  intros Hi. apply truthy_true in Hi. unfold Parse.inner_of.
  destruct close as [c|]; simpl.
  - by rewrite strip_last_complete, Hi.
  - by rewrite append_nil_r, Hi.
Qed.

Lemma here_iff lit close s i :
  here lit close s = Some i ↔ matches_here lit close s i.
Proof.
  unfold here, matches_here. split.
  - destruct (PyStr.strip_prefix_ci lit s) as [rest|] eqn:E; [|done]. intros Hi.
    destruct (strip_prefix_ci_sound _ _ _ E) as (w & -> & Hw).
    destruct (inner_of_sound _ _ _ Hi) as [-> Hne]. by exists w.
  - intros (w & -> & Hw & Hne).
    rewrite strip_prefix_ci_complete by done. by apply inner_of_complete.
Qed.

Lemma scan_unfold lit close acc s :
  Parse.scan lit close acc s =
  match here lit close s with
  | Some i => Some (Parse.mkResult acc i)
  | None =>
      match s with
      | "" => None
      | String c s' => Parse.scan lit close (acc +:+ String c "") s'
      end
  end.
Proof.
  unfold here. destruct s; simpl;
    destruct (PyStr.strip_prefix_ci lit _); try done;
    by destruct (Parse.inner_of close _).
Qed.

Lemma append_eq_nil (a b : string) : a +:+ b = "" → a = "" ∧ b = "".
Proof. destruct a; [intros H; by split|]. by rewrite append_cons. Qed.

Lemma append_eq_cons (c : ascii) (s a b : string) :
  String c s = a +:+ b →
  (a = "" ∧ b = String c s) ∨ ∃ a', a = String c a' ∧ s = a' +:+ b.
Proof.
  destruct a as [|x a']; [by left|]. rewrite append_cons. intros [= -> ->].
  right. by exists a'.
Qed.

Lemma scan_spec lit close s : ∀ acc r,
  Parse.scan lit close acc s = Some r ↔
  ∃ mid tl, s = mid +:+ tl
    ∧ Parse.outer r = acc +:+ mid
    ∧ matches_here lit close tl (Parse.inner r)
    ∧ ∀ mid' tl' i', s = mid' +:+ tl' → matches_here lit close tl' i' →
        String.length mid ≤ String.length mid'.
Proof.
  induction s as [|c s IH]; intros acc [o i]; rewrite scan_unfold; simpl.
  - destruct (here lit close "") as [j|] eqn:Hh.
    + split.
      * intros [= <- <-]. exists "", "".
        split; [done|]. split; [by rewrite append_nil_r|].
        split; [by apply here_iff | simpl; lia].
      * intros (mid & tl & Hs & Ho & Hm & _).
        symmetry in Hs. apply append_eq_nil in Hs as [-> ->].
        apply here_iff in Hm. rewrite append_nil_r in Ho. congruence.
    + split; [done|]. intros (mid & tl & Hs & Ho & Hm & _).
      symmetry in Hs. apply append_eq_nil in Hs as [-> ->].
      apply here_iff in Hm. congruence.
  - destruct (here lit close (String c s)) as [j|] eqn:Hh.
    + split.
      * intros [= <- <-]. exists "", (String c s).
        split; [done|]. split; [by rewrite append_nil_r|].
        split; [by apply here_iff | simpl; lia].
      * intros (mid & tl & Hs & Ho & Hm & Hmin).
        pose proof (Hmin "" (String c s) j eq_refl (proj1 (here_iff _ _ _ _) Hh)) as Hl.
        destruct mid; [|simpl in Hl; lia]. rewrite append_nil_l in Hs. subst tl.
        apply here_iff in Hm. rewrite append_nil_r in Ho. congruence.
    + assert (Hno : ∀ i', ¬ matches_here lit close (String c s) i').
      { intros i' Hm. apply here_iff in Hm. congruence. }
      rewrite IH. simpl. split.
      * intros (mid & tl & -> & Ho & Hm & Hmin).
        exists (String c mid), tl. rewrite append_cons.
        split; [done|]. split; [by rewrite Ho, append_assoc|]. split; [done|].
        intros mid' tl' i' Hs Hm'.
        apply append_eq_cons in Hs as [[-> ->] | (a' & -> & Hs)].
        { by destruct (Hno i'). }
        simpl. apply le_n_S. by eapply Hmin.
      * intros (mid & tl & Hs & Ho & Hm & Hmin).
        apply append_eq_cons in Hs as [[-> ->] | (a' & -> & Hs)].
        { by destruct (Hno i). }
        exists a', tl. split; [done|]. split; [by rewrite Ho, append_assoc|].
        split; [done|]. intros mid' tl' i' Hs' Hm'.
        specialize (Hmin (String c mid') tl' i'). rewrite append_cons in Hmin.
        simpl in Hmin. apply le_S_n, Hmin; [by rewrite Hs'|done].
Qed.

Lemma scan_None lit close s : ∀ acc,
  Parse.scan lit close acc s = None ↔
  ∀ mid tl i, s = mid +:+ tl → ¬ matches_here lit close tl i.
Proof.
  induction s as [|c s IH]; intros acc; rewrite scan_unfold.
  - destruct (here lit close "") as [j|] eqn:Hh.
    + split; [done|]. intros H. destruct (H "" "" j eq_refl). by apply here_iff.
    + split; [|done]. intros _ mid tl i Hs Hm.
      symmetry in Hs. apply append_eq_nil in Hs as [-> ->].
      apply here_iff in Hm. congruence.
  - destruct (here lit close (String c s)) as [j|] eqn:Hh.
    + split; [done|]. intros H. destruct (H "" (String c s) j eq_refl).
      by apply here_iff.
    + rewrite IH. split.
      * intros H mid tl i Hs Hm.
        apply append_eq_cons in Hs as [[-> ->] | (a' & -> & Hs)].
        { apply here_iff in Hm. congruence. }
        by eapply H.
      * intros H mid tl i Hs Hm. apply (H (String c mid) tl i); [|done].
        by rewrite append_cons, Hs.
Qed.

(** [parse.parse] finds the first split, and only that. *)
Lemma parse2_first_split lit close s r :
  Parse.parse2 lit close s = Some r
  ↔ first_split lit close s (Parse.outer r) (Parse.inner r).
Proof.
  destruct s as [|c s]; simpl.
  - split; [done|]. intros [(Ho & tl & Hs & _) _].
    symmetry in Hs. by apply append_eq_nil in Hs as [? _].
  - rewrite scan_spec. split.
    + intros (mid & tl & -> & Ho & Hm & Hmin). split.
      * split; [rewrite Ho; by rewrite append_cons|].
        exists tl. split; [by rewrite Ho|done].
      * intros o i (Hne & tl' & Hs & Hm').
        apply append_eq_cons in Hs as [[-> _] | (a' & -> & Hs)]; [done|].
        rewrite Ho. simpl. apply le_n_S. by eapply Hmin.
    + intros [(Hne & tl & Hs & Hm) Hmin].
      apply append_eq_cons in Hs as [[Ho _] | (a' & Ho & Hs)]; [done|].
      exists a', tl. split; [done|]. split; [by rewrite Ho|]. split; [done|].
      intros mid' tl' i' Hs' Hm'.
      assert (Hsp : splits lit close (String c s) (String c mid') i').
      { split; [done|]. exists tl'. split; [by rewrite append_cons, Hs'|done]. }
      apply Hmin in Hsp. rewrite Ho in Hsp. simpl in Hsp. lia.
Qed.

(** [parse.parse] gives [None] exactly when there is no split. *)
Lemma parse2_None lit close s :
  Parse.parse2 lit close s = None ↔ ∀ o i, ¬ splits lit close s o i.
Proof.
  destruct s as [|c s]; simpl.
  - split; [|done]. intros _ o i (Ho & tl & Hs & _).
    symmetry in Hs. by apply append_eq_nil in Hs as [? _].
  - rewrite scan_None. split.
    + intros H o i (Hne & tl & Hs & Hm).
      apply append_eq_cons in Hs as [[-> _] | (a' & -> & Hs)]; [done|].
      by eapply H.
    + intros H mid tl i Hs Hm. apply (H (String c mid) i).
      split; [done|]. exists tl. split; [by rewrite append_cons, Hs|done].
Qed.

Lemma strip_last_cons_None (c a : ascii) (s : string) :
  s ≠ "" → PyStr.strip_last c s = None → PyStr.strip_last c (String a s) = None.
Proof. destruct s; [done|]. intros _ H. simpl in *. by rewrite H. Qed.

Lemma no_split_without_closing lit (c : ascii) s :
  PyStr.strip_last c s = None → ∀ o i, ¬ splits lit (Some c) s o i.
Proof.
  intros Hn o i (_ & tl & -> & w & -> & _ & _). simpl in Hn.
  rewrite <- !append_assoc in Hn. by rewrite strip_last_complete in Hn.
Qed.

Lemma strip_last_append_None (c : ascii) (a b : string) :
  b ≠ "" → PyStr.strip_last c b = None → PyStr.strip_last c (a +:+ b) = None.
Proof.
  intros Hb Hn. induction a as [|x a IH]; [done|].
  rewrite append_cons. apply strip_last_cons_None; [|done].
  destruct a; [done | by rewrite append_cons].
Qed.

(** ** Energy bin edges *)

Lemma np_sub_same_length (a b : list float) :
  length a = length b → np_sub a b = Ok (zip_with PrimFloat.sub a b).
Proof. intros E. unfold np_sub. by rewrite E, Nat.eqb_refl. Qed.

(** C9: for non-empty bin centers and half-widths of the same length [n],
    [compute_energy_edges] returns [n+1] edges, [edge[i] = center[i] -
    halfwidth[i]] for [i < n] and [edge[n] = center[n-1] + halfwidth[n-1]];
    centers [1.0, 2.0, 3.0] with half-widths [0.5, 0.5, 0.5] give
    [0.5, 1.5, 2.5, 3.5]. *)
Theorem compute_energy_edges_spec :
  (∀ energy energy_err : list float,
     energy ≠ [] → length energy = length energy_err →
     ∃ edges : list float,
       compute_energy_edges energy energy_err = Ok edges
       ∧ length edges = S (length energy)
       ∧ (∀ i c h, energy !! i = Some c → energy_err !! i = Some h →
            edges !! i = Some (PrimFloat.sub c h))
       ∧ (∀ c h, energy !! (length energy - 1) = Some c →
            energy_err !! (length energy - 1) = Some h →
            edges !! length energy = Some (PrimFloat.add c h)))
  ∧ compute_energy_edges [1.0; 2.0; 3.0]%float [0.5; 0.5; 0.5]%float
    = Ok [0.5; 1.5; 2.5; 3.5]%float.
Proof.
  split; [|reflexivity].
  intros energy energy_err Hne Hlen.
  assert (Hne' : energy_err ≠ []) by (destruct energy, energy_err; done).
  apply last_is_Some in Hne as [e He]. apply last_is_Some in Hne' as [w Hw].
  assert (Hz : length (zip_with PrimFloat.sub energy energy_err) = length energy).
  { rewrite length_zip_with. lia. }
  exists (zip_with PrimFloat.sub energy energy_err ++ [PrimFloat.add e w]).
  split; [|split; [|split]].
  - unfold compute_energy_edges, np_last.
    rewrite np_sub_same_length, He, Hw by done. reflexivity.
  - rewrite length_app, Hz. simpl. lia.
  - intros i c h Hc Hh.
    rewrite lookup_app_l by (rewrite Hz; by eapply lookup_lt_Some).
    by rewrite lookup_zip_with, Hc, Hh.
  - intros c h Hc Hh.
    rewrite last_lookup in He, Hw. rewrite <- Hlen in Hw.
    replace (Init.Nat.pred (length energy)) with (length energy - 1) in * by lia.
    rewrite lookup_app_r by lia. rewrite Hz, Nat.sub_diag. simpl. congruence.
Qed.

Lemma compute_energy_edges_witness :
  ∃ edges : list float,
    compute_energy_edges [1.0; 2.0]%float [0.5; 0.25]%float = Ok edges
    ∧ length edges = 3
    ∧ (∀ i c h, [1.0; 2.0]%float !! i = Some c → [0.5; 0.25]%float !! i = Some h →
         edges !! i = Some (PrimFloat.sub c h))
    ∧ (∀ c h, [1.0; 2.0]%float !! 1 = Some c → [0.5; 0.25]%float !! 1 = Some h →
         edges !! 2 = Some (PrimFloat.add c h)).
Proof.
  apply (proj1 compute_energy_edges_spec [1.0; 2.0]%float [0.5; 0.25]%float);
    [discriminate | reflexivity].
Defined.

(** ** Expression algebra *)

(** C10: normalization rewrites the exact substring [const*] only.  An
    expression without it, such as the spaced [const * vapec], comes back
    unchanged when there is neither a previous nor a pileup expression;
    so it never takes the [constant*] form that a later extension looks
    for. *)
Theorem spaced_shorthand_unchanged :
  (∀ new : string,
     PyStr.contains "const*" new = false →
     _configure_new_expression "" new "" = Ok new)
  ∧ (∀ new : string,
       PyStr.contains "const*" new = true →
       _configure_new_expression "" new ""
       = Ok (PyStr.replace "const*" "constant*" new))
  ∧ _configure_new_expression "" "const * vapec" "" = Ok "const * vapec"
  ∧ PyStr.contains "constant" "const * vapec" = false
  ∧ _configure_new_expression "" "const*vapec" "" = Ok "constant*vapec".
Proof.
  repeat split; try reflexivity.
  - intros new H. unfold _configure_new_expression. by rewrite H.
  - intros new H. unfold _configure_new_expression. by rewrite H.
Qed.

Lemma spaced_shorthand_unchanged_witness :
  _configure_new_expression "" "const * (vapec + vapec)" ""
  = Ok "const * (vapec + vapec)".
Proof.
  apply (proj1 spaced_shorthand_unchanged "const * (vapec + vapec)").
  reflexivity.
Defined.

Lemma normalized_new (new : string) :
  (if PyStr.contains "const*" new
   then PyStr.replace "const*" "constant*" new else new)
  = PyStr.replace "const*" "constant*" new.
Proof.
  destruct (PyStr.contains "const*" new) eqn:E; [reflexivity|].
  by rewrite replace_absent.
Qed.

(** C1 as stated fails: with a standing pileup expression the result has
    that expression in front, and a previous expression that contains
    [constant] outside the two patterns raises. *)
Lemma configure_new_expression_counterexample :
  _configure_new_expression "expmodgauss" "vapec" "" = Ok "expmodgauss + vapec"
  ∧ _configure_new_expression "expmodgauss" "vapec" ""
    ≠ Ok (PyStr.replace "const*" "constant*" "vapec")
  ∧ _configure_new_expression "" "vapec" "constant" = Raise AttributeError
  ∧ _configure_new_expression "" "vapec" "constant * bknpower"
    = Raise AttributeError.
Proof. repeat split; try reflexivity. discriminate. Qed.

(** C1, amended.  Write [new'] for the new expression with every [const*]
    replaced by [constant*].  The body is [new'] without a previous
    expression, and [old + new'] with a previous expression that does not
    contain [constant].  With one that contains [constant], a space is put
    in front and it is split as [outer], the wrapper [constant*(] in any
    letter case, [inner] and [)], both fields non-empty and [outer] as
    short as can be; failing any such split, as [outer], [constant*] in any
    letter case and [inner]; the body is then
    [outer constant*(inner + new')].  So [constant*(inner)] and
    [constant*inner] both give [ constant*(inner + new')].  With neither
    split the call raises.  The result is the body, after
    [pileup_expression + ] when a pileup expression is set. *)
Theorem configure_new_expression_spec (pileup_expression new old : string) :
  let new' := PyStr.replace "const*" "constant*" new in
  let run := _configure_new_expression pileup_expression new old in
  (old = "" → run = Ok (with_pileup pileup_expression new'))
  ∧ (old ≠ "" → PyStr.contains "constant" old = false →
       run = Ok (with_pileup pileup_expression (old +:+ " + " +:+ new')))
  ∧ (old ≠ "" → PyStr.contains "constant" old = true →
       ∀ outer inner,
         first_split "constant*(" (Some ")"%char) (" " +:+ old) outer inner →
         run = Ok (rewrapped pileup_expression outer inner new'))
  ∧ (old ≠ "" → PyStr.contains "constant" old = true →
       (∀ o i, ¬ splits "constant*(" (Some ")"%char) (" " +:+ old) o i) →
       ∀ outer inner,
         first_split "constant*" None (" " +:+ old) outer inner →
         run = Ok (rewrapped pileup_expression outer inner new'))
  ∧ (old ≠ "" → PyStr.contains "constant" old = true →
       (∀ o i, ¬ splits "constant*(" (Some ")"%char) (" " +:+ old) o i) →
       (∀ o i, ¬ splits "constant*" None (" " +:+ old) o i) →
       run = Raise AttributeError)
  ∧ (∀ inner, inner ≠ "" → old = "constant*(" +:+ inner +:+ ")" →
       run = Ok (rewrapped pileup_expression " " inner new'))
  ∧ (∀ inner, inner ≠ "" → PyStr.strip_last ")" inner = None →
       old = "constant*" +:+ inner →
       run = Ok (rewrapped pileup_expression " " inner new')).
Proof.
  intros new' run.
  assert (Hparen : old ≠ "" → PyStr.contains "constant" old = true →
            ∀ outer inner,
              first_split "constant*(" (Some ")"%char) (" " +:+ old) outer inner →
              run = Ok (rewrapped pileup_expression outer inner new')).
  { intros Ho Hc outer inner Hf.
    apply (parse2_first_split _ _ _ (Parse.mkResult outer inner)) in Hf.
    subst run. unfold _configure_new_expression.
    rewrite normalized_new. fold new'. apply truthy_true in Ho.
    unfold parse_CONSTANT_EXPRESSION_PAREN. rewrite Ho, Hc, Hf. simpl.
    unfold rewrapped, with_pileup, format_CONSTANT_EXPRESSION_PAREN. simpl.
    rewrite !append_assoc. by destruct (PyStr.truthy pileup_expression). }
  assert (Hbare : old ≠ "" → PyStr.contains "constant" old = true →
            (∀ o i, ¬ splits "constant*(" (Some ")"%char) (" " +:+ old) o i) →
            ∀ outer inner,
              first_split "constant*" None (" " +:+ old) outer inner →
              run = Ok (rewrapped pileup_expression outer inner new')).
  { intros Ho Hc Hno outer inner Hf.
    apply (parse2_first_split _ _ _ (Parse.mkResult outer inner)) in Hf.
    apply parse2_None in Hno.
    subst run. unfold _configure_new_expression.
    rewrite normalized_new. fold new'. apply truthy_true in Ho.
    unfold parse_CONSTANT_EXPRESSION_PAREN, parse_CONSTANT_EXPRESSION_NO_PAREN.
    rewrite Ho, Hc, Hno, Hf. simpl.
    unfold rewrapped, with_pileup, format_CONSTANT_EXPRESSION_PAREN. simpl.
    rewrite !append_assoc. by destruct (PyStr.truthy pileup_expression). }
  split; [|split; [|split; [exact Hparen|split; [exact Hbare|split; [|split]]]]].
  - intros ->. subst run. unfold _configure_new_expression.
    rewrite normalized_new. fold new'. unfold with_pileup. simpl.
    by destruct (PyStr.truthy pileup_expression).
  - intros Ho Hc. apply truthy_true in Ho. subst run.
    unfold _configure_new_expression.
    rewrite normalized_new. fold new'. unfold with_pileup. rewrite Ho, Hc. simpl.
    by destruct (PyStr.truthy pileup_expression).
  - intros Ho Hc Hp Hn. apply truthy_true in Ho.
    apply parse2_None in Hp. apply parse2_None in Hn.
    subst run. unfold _configure_new_expression.
    unfold parse_CONSTANT_EXPRESSION_PAREN, parse_CONSTANT_EXPRESSION_NO_PAREN.
    by rewrite Ho, Hc, Hp, Hn.
  - intros inner Hi ->. apply Hparen; [done | done |].
    split.
    + split; [done|]. exists ("constant*(" +:+ inner +:+ ")").
      split; [done|]. by exists "constant*(".
    + intros o i (Hne & _). destruct o; [done | simpl; lia].
  - intros inner Hi Hlast ->. apply Hbare; [done | done | |].
    + apply no_split_without_closing.
      apply (strip_last_append_None _ " constant*"); done.
    + split.
      * split; [done|]. exists ("constant*" +:+ inner).
        split; [done|]. exists "constant*". by rewrite append_nil_r.
      * intros o i (Hne & _). destruct o; [done | simpl; lia].
Qed.

Lemma configure_new_expression_witness :
  _configure_new_expression "expmodgauss" "const*bknpower"
    "expmodgauss + constant*(vapec + vapec)"
  = Ok "expmodgauss +  expmodgauss + constant*(vapec + vapec + constant*bknpower)".
Proof.
  pose proof (configure_new_expression_spec "expmodgauss" "const*bknpower"
                "expmodgauss + constant*(vapec + vapec)") as H.
  destruct H as (_ & _ & H & _).
  apply (H ltac:(discriminate) eq_refl " expmodgauss + " "vapec + vapec").
  apply (parse2_first_split "constant*(" (Some ")"%char)
           " expmodgauss + constant*(vapec + vapec)"
           (Parse.mkResult " expmodgauss + " "vapec + vapec")).
  reflexivity.
Defined.

(** ** Naming of repeated components *)

Lemma zip_with_image {A B} (f : A → B) (l : list A) :
  zip l (map f l) = map (fun x => (x, f x)) l.
Proof. induction l as [|x l IH]; simpl; [reflexivity | by rewrite IH]. Qed.

Lemma occurences_of_lookup (a : list string) (b : string) :
  b ∈ a → occurences_of a !! b = Some (count_occ String.eq_dec a b, 0).
Proof.
  intros Hb. unfold occurences_of, np_unique_counts.
  set (names := merge_sort String.le (remove_dups a)).
  assert (Hperm : names ≡ₚ remove_dups a) by apply merge_sort_Permutation.
  rewrite zip_with_image, <- list_fmap_compose.
  apply elem_of_list_to_map_1.
  - rewrite <- list_fmap_compose.
    rewrite (list_fmap_ext _ id names) by done.
    rewrite list_fmap_id, Hperm. apply NoDup_remove_dups.
  - apply (list_elem_of_fmap_2 (fun x => (x, (count_occ String.eq_dec a x, 0)))).
    rewrite Hperm. by apply elem_of_remove_dups.
Qed.

Lemma occurs_snoc (b : string) (pre : list string) (full : string) :
  occurs b (pre ++ [full])
  = if decide (PyStr.before_underscore full = b)
    then S (occurs b pre) else occurs b pre.
Proof.
  rewrite map_app, count_occ_app. simpl.
  destruct (String.eq_dec (PyStr.before_underscore full) b);
    case_decide; try done; lia.
Qed.

Lemma instance_names_loop_spec (all pre rest : list string) occ :
  all = pre ++ rest →
  counters_after all pre occ →
  ∃ out, instance_names_loop rest occ = Ok out
    ∧ length out = length rest
    ∧ ∀ j full, rest !! j = Some full →
        out !! j = Some (expected_name all (length pre + j) full).
Proof.
  revert pre occ. induction rest as [|full rest IH]; intros pre occ Hall Hocc.
  { exists []. by repeat split. }
  set (b := PyStr.before_underscore full).
  assert (Hb : b ∈ map PyStr.before_underscore all).
  { subst all. rewrite map_app. apply elem_of_app. right. simpl. left. }
  pose proof (Hocc b Hb) as Hlook.
  assert (Htake : take (S (length pre)) all = pre ++ [full]).
  { subst all. rewrite (take_S_r _ _ full).
    - by rewrite take_app_length.
    - by rewrite lookup_app_r, Nat.sub_diag by lia. }
  assert (Hall' : all = (pre ++ [full]) ++ rest) by (by rewrite <- app_assoc).
  cbn [instance_names_loop]. unfold instance_name. fold b. rewrite Hlook. simpl.
  destruct (1 <? occurs b all)%nat eqn:Hmany; simpl.
  - destruct (IH (pre ++ [full])
                (<[b := (occurs b all, S (occurs b pre))]> occ) Hall')
      as (out & Hrun & Hlen & Hout).
    { intros b' Hb'. rewrite occurs_snoc. fold b.
      destruct (decide (b = b')) as [<-|Hne].
      - by rewrite lookup_insert_eq, Hmany.
      - rewrite lookup_insert_ne by done. by apply Hocc. }
    rewrite Hrun. simpl. eexists. split; [reflexivity|]. split; [simpl; lia|].
    intros [|j] full' Hj; simpl in Hj.
    + injection Hj as <-. simpl. f_equal. unfold expected_name. fold b.
      rewrite Hmany, Nat.add_0_r, Htake, occurs_snoc. fold b.
      by rewrite decide_True.
    + simpl. rewrite (Hout j full' Hj). do 2 f_equal.
      rewrite length_app. simpl. lia.
  - destruct (IH (pre ++ [full]) occ Hall') as (out & Hrun & Hlen & Hout).
    { intros b' Hb'. rewrite occurs_snoc. fold b.
      rewrite (Hocc b' Hb'). f_equal. f_equal.
      destruct (decide (b = b')) as [<-|Hne]; [by rewrite Hmany | done]. }
    rewrite Hrun. simpl. eexists. split; [reflexivity|]. split; [simpl; lia|].
    intros [|j] full' Hj; simpl in Hj.
    + injection Hj as <-. simpl. f_equal. unfold expected_name. fold b.
      by rewrite Hmany.
    + simpl. rewrite (Hout j full' Hj). do 2 f_equal.
      rewrite length_app. simpl. lia.
Qed.

Lemma instance_names_total (names : list string) :
  ∃ out, instance_names names = Ok out
    ∧ length out = length names
    ∧ ∀ i full, names !! i = Some full →
        out !! i = Some (expected_name names i full).
Proof.
  apply (instance_names_loop_spec names [] names); [reflexivity|].
  intros b Hb. rewrite occurences_of_lookup by done.
  simpl. by destruct (1 <? _)%nat.
Qed.

Lemma expected_name_base (a b : list string) i x y :
  map PyStr.before_underscore a = map PyStr.before_underscore b →
  PyStr.before_underscore x = PyStr.before_underscore y →
  expected_name a i x = expected_name b i y.
Proof.
  intros Hab Hxy. unfold expected_name.
  rewrite <- !firstn_map. by rewrite Hab, Hxy.
Qed.

Lemma odict_keys_insert {V} (k : string) (v : V) (d : list (string * V)) (n : string) :
  n ∈ ODict.keys (ODict.insert k v d) ↔ n = k ∨ n ∈ ODict.keys d.
Proof.
  unfold ODict.keys. induction d as [|[k' v'] d IH]; simpl.
  - rewrite list_elem_of_singleton. set_solver.
  - case_decide; subst; simpl; set_solver.
Qed.

Lemma archive_components_loop_keys x group model names occ comps out :
  archive_components_loop x group model names occ comps = Ok out →
  ∃ ns, instance_names_loop names occ = Ok ns
    ∧ ∀ n, n ∈ ODict.keys out ↔ n ∈ ODict.keys comps ∨ n ∈ ns.
Proof.
  revert occ comps. induction names as [|full names IH]; intros occ comps H.
  - injection H as <-. exists []. split; [done|]. set_solver.
  - cbn [archive_components_loop instance_names_loop] in *.
    destruct (get_component model full) as [c|]; [|done]. simpl in H.
    destruct (ArchivedComponent_init x group (m_name model) full c) as [ac|];
      [|done]. simpl in H.
    destruct (instance_name occ full) as [[key occ']|]; [|done]. simpl in *.
    destruct (IH _ _ H) as (ns & -> & Hns). simpl.
    eexists. split; [reflexivity|]. intros n.
    rewrite Hns, odict_keys_insert. set_solver.
Qed.


(** ** The engine under setter calls *)

Lemma replay_app (a b : list Call) (x : Xspec) :
  replay (a ++ b) x = replay b (replay a x).
Proof. apply foldl_app. Qed.

Lemma replay_models cs x : AllModels (replay cs x) = AllModels x.
Proof. revert x. induction cs as [|c cs IH]; intros x; [done|]. simpl. by rewrite IH. Qed.

Lemma replay_data cs x : AllData (replay cs x) = AllData x.
Proof. revert x. induction cs as [|c cs IH]; intros x; [done|]. simpl. by rewrite IH. Qed.

Lemma replay_plot cs x : Plot (replay cs x) = Plot x.
Proof. revert x. induction cs as [|c cs IH]; intros x; [done|]. simpl. by rewrite IH. Qed.

Lemma replay_calls cs x : calls (replay cs x) = calls x ++ cs.
Proof.
  revert x. induction cs as [|c cs IH]; intros x; simpl.
  - by rewrite app_nil_r.
  - rewrite IH. simpl. by rewrite <- app_assoc.
Qed.

Lemma replay_params cs x r :
  params (replay cs x) !! r = settle r cs <$> params x !! r.
Proof.
  revert x. induction cs as [|c cs IH]; intros x; simpl.
  - by destruct (params x !! r).
  - rewrite IH. simpl. rewrite lookup_alter.
    unfold settle at 2. simpl. fold (settle r cs).
    destruct (decide (call_target c = r)) as [->|Hd]; [|done].
    by destruct (params x !! r).
Qed.

Lemma replay_has_parameter cs x r :
  has_parameter (replay cs x) r = has_parameter x r.
Proof.
  unfold has_parameter. rewrite replay_params.
  apply bool_decide_ext. by rewrite fmap_is_Some.
Qed.

Lemma same_frame_refl x : same_frame x x.
Proof. by repeat split. Qed.

Lemma same_frame_replay x0 x cs : same_frame x0 x → same_frame x0 (replay cs x).
Proof.
  intros (Hm & Hd & Hp & Hh). repeat split.
  - by rewrite replay_models.
  - by rewrite replay_data.
  - by rewrite replay_plot.
  - intros r. by rewrite replay_has_parameter.
Qed.

Lemma settle_app r a b p : settle r (a ++ b) p = settle r b (settle r a p).
Proof. apply foldl_app. Qed.

Lemma settle_untouched r cs p :
  (∀ c, c ∈ cs → call_target c ≠ r) → settle r cs p = p.
Proof.
  revert p. induction cs as [|c cs IH]; intros p H; [done|]. simpl.
  rewrite decide_False by (apply H; left).
  apply IH. intros c' Hc'. apply H. by right.
Qed.

Lemma settle_keeps {B} (proj : XspecParameter → B) r cs p :
  (∀ c, c ∈ cs → call_target c = r → keeps proj c) →
  proj (settle r cs p) = proj p.
Proof.
  revert p. induction cs as [|c cs IH]; intros p H; [done|]. simpl.
  rewrite IH by (intros c' Hc'; apply H; by right).
  case_decide as Hd; [|done]. apply (H c); [left | done].
Qed.

Lemma settle_sets {B} (proj : XspecParameter → B) (v : B) r cs p :
  (∀ c, c ∈ cs → call_target c = r → keeps proj c ∨ sets proj v c) →
  (∃ c, c ∈ cs ∧ call_target c = r ∧ sets proj v c) →
  proj (settle r cs p) = v.
Proof.
  intros Hall (c0 & Hin & Ht & Hs).
  apply list_elem_of_split in Hin as (a & b & ->).
  rewrite settle_app. simpl. rewrite decide_True by done.
  assert (Hb : ∀ q, proj q = v → proj (settle r b q) = v).
  { clear Hs. induction b as [|c b IH]; intros q Hq; [done|]. simpl.
    apply IH.
    - intros c' Hc'. apply Hall. rewrite !elem_of_app, !elem_of_cons in *. tauto.
    - case_decide as Hd; [|done].
      destruct (Hall c) as [Hk|Hk]; [set_solver | done | by rewrite Hk | by rewrite Hk]. }
  apply Hb, Hs.
Qed.

Lemma emits_none x : emits x x (fun _ => False).
Proof. exists []. split; [done|]. intros c. by rewrite elem_of_nil. Qed.

Lemma emits_one c x : emits x (send c x) (fun c' => c' = c).
Proof. exists [c]. split; [done|]. intros c'. by rewrite list_elem_of_singleton. Qed.

Lemma emits_seq x x1 x2 Q1 Q2 :
  emits x x1 Q1 → emits x1 x2 Q2 → emits x x2 (fun c => Q1 c ∨ Q2 c).
Proof.
  intros (cs1 & -> & H1) (cs2 & -> & H2). exists (cs1 ++ cs2).
  split; [by rewrite replay_app|]. intros c. by rewrite elem_of_app, H1, H2.
Qed.

Lemma emits_ext x x' Q Q' : emits x x' Q → (∀ c, Q c ↔ Q' c) → emits x x' Q'.
Proof. intros (cs & -> & H) HQ. exists cs. split; [done|]. intros c. by rewrite H. Qed.

Lemma emits_frame x0 x x' Q : emits x x' Q → same_frame x0 x → same_frame x0 x'.
Proof. intros (cs & -> & _). apply same_frame_replay. Qed.

Lemma emits_untouched x x' Q r :
  emits x x' Q → (∀ c, Q c → call_target c ≠ r) → params x' !! r = params x !! r.
Proof.
  intros (cs & -> & H) Hr. rewrite replay_params.
  destruct (params x !! r) as [p|]; [|done]. simpl. f_equal.
  apply settle_untouched. intros c Hc. by apply Hr, H.
Qed.

Lemma emits_keeps {B} (proj : XspecParameter → B) x x' Q r :
  emits x x' Q → (∀ c, Q c → call_target c = r → keeps proj c) →
  proj <$> params x' !! r = proj <$> params x !! r.
Proof.
  intros (cs & -> & H) Hr. rewrite replay_params.
  destruct (params x !! r) as [p|]; [|done]. simpl. f_equal.
  apply settle_keeps. intros c Hc. by apply Hr, H.
Qed.

Lemma emits_sets {B} (proj : XspecParameter → B) (v : B) x x' Q r :
  emits x x' Q →
  (∀ c, Q c → call_target c = r → keeps proj c ∨ sets proj v c) →
  (∃ c, Q c ∧ call_target c = r ∧ sets proj v c) →
  has_parameter x r = true →
  ∃ p, params x' !! r = Some p ∧ proj p = v.
Proof.
  intros (cs & -> & H) Hall (c & Hc & Ht & Hs) Hhas.
  apply bool_decide_eq_true in Hhas as [p Hp].
  exists (settle r cs p). split; [by rewrite replay_params, Hp|].
  apply settle_sets.
  - intros c' Hc'. by apply Hall, H.
  - exists c. by rewrite H.
Qed.

(** A loop whose passes emit calls emits the calls of all its passes.
    [π] picks the engine out of the state of the loop. *)
Lemma for_each_emits {A S} (π : S → Xspec) (x0 : Xspec) (Q : A → Call → Prop)
    (body : A → S → result S) (l : list A) :
  (∀ a s s', a ∈ l → same_frame x0 (π s) → body a s = Ok s' →
     emits (π s) (π s') (Q a)) →
  ∀ s s', same_frame x0 (π s) → for_each l body s = Ok s' →
    emits (π s) (π s') (fun c => ∃ a, a ∈ l ∧ Q a c).
Proof.
  induction l as [|a l IH]; intros Hbody s s' Hf H.
  - injection H as <-. eapply emits_ext; [apply emits_none|]. set_solver.
  - simpl in H. destruct (body a s) as [s1|] eqn:E; [|done]. simpl in H.
    assert (H1 : emits (π s) (π s1) (Q a)) by (apply Hbody; [left | done | done]).
    assert (H2 : emits (π s1) (π s') (fun c => ∃ a, a ∈ l ∧ Q a c)).
    { apply IH; [|by eapply emits_frame|done].
      intros a' t t' Ha'. apply Hbody. by right. }
    eapply emits_ext; [by eapply emits_seq|]. set_solver.
Qed.

(** One step of a run that has succeeded: the first computation under
    [H] has given a value, which the equation [E] names. *)
Ltac run_step H E :=
  cbv beta iota in H;
  match type of H with
  | mbind _ ?m = Ok _ =>
      destruct m eqn:E; cbn [mbind result_bind] in H; [|discriminate H]
  end.

(** Every pass of a loop that has succeeded has succeeded, from a state
    with the frame of the start. *)
Lemma for_each_pass {A S} (π : S → Xspec) (x0 : Xspec)
    (body : A → S → result S) (l : list A) :
  (∀ a s s', same_frame x0 (π s) → body a s = Ok s' → same_frame x0 (π s')) →
  ∀ s s', same_frame x0 (π s) → for_each l body s = Ok s' →
    ∀ a, a ∈ l → ∃ t t', same_frame x0 (π t) ∧ body a t = Ok t'.
Proof.
  intros Hbody. induction l as [|b l IH]; intros s s' Hf H a Ha.
  - by apply elem_of_nil in Ha.
  - cbn [for_each] in H. run_step H E.
    apply elem_of_cons in Ha as [->|Ha]; [by eauto|].
    eapply IH; [|exact H|exact Ha]. by eapply Hbody.
Qed.

Lemma for_each_frame {A S} (π : S → Xspec) (x0 : Xspec)
    (body : A → S → result S) (l : list A) :
  (∀ a s s', same_frame x0 (π s) → body a s = Ok s' → same_frame x0 (π s')) →
  ∀ s s', same_frame x0 (π s) → for_each l body s = Ok s' → same_frame x0 (π s').
Proof.
  intros Hbody. induction l as [|b l IH]; intros s s' Hf H.
  - by injection H as <-.
  - cbn [for_each] in H. run_step H E. eapply IH; [|exact H]. by eapply Hbody.
Qed.

Lemma send_frame x0 c x : same_frame x0 x → same_frame x0 (send c x).
Proof. apply (same_frame_replay x0 x [c]). Qed.

(** ** Parameter limits *)

Lemma or_raise_Ok {A} e (o : option A) a : or_raise e o = Ok a → o = Some a.
Proof. destruct o; simpl; congruence. Qed.

Lemma get_parameter_Ok x r r' : get_parameter x r = Ok r' → r' = r ∧ has_parameter x r = true.
Proof. unfold get_parameter. destruct (has_parameter x r); [|done]. by intros [= <-]. Qed.

Lemma limits_parameter_emits x0 current tie conf g cn p st st' :
  same_frame x0 st.1 →
  limits_parameter current tie conf g cn p st = Ok st' →
  emits st.1 st'.1 (limit_call x0 current tie conf g cn p).
Proof.
  intros (_ & _ & _ & Hh) H. unfold limits_parameter in H.
  unfold limit_call. rewrite <- Hh.
  destruct (has_parameter st.1 _) eqn:Hhas.
  - unfold get_parameter in H. rewrite Hhas in H. simpl in H.
    destruct ((1 <? g)%nat && tie) eqn:Hskip.
    + injection H as <-. eapply emits_ext; [apply emits_none|]. naive_solver.
    + destruct (ODict.lookup p conf) as [entry|] eqn:He; [|done].
      injection H as <-. simpl.
      eapply emits_ext; [apply emits_one|]. naive_solver.
  - injection H as <-. eapply emits_ext; [apply emits_none|]. naive_solver.
Qed.

Lemma untie_parameter_emits current tie g cn p x x' :
  untie_parameter current tie g cn p x = Ok x' →
  emits x x' (untie_call current tie g cn p).
Proof.
  unfold untie_parameter, untie_call. intros H.
  destruct (get_parameter x _) as [r|] eqn:E; [|done].
  apply get_parameter_Ok in E as [-> _]. simpl in H.
  destruct tie; simpl in H; injection H as <-.
  - eapply emits_ext; [apply emits_none|]. naive_solver.
  - eapply emits_ext; [apply emits_one|]. naive_solver.
Qed.

Lemma limits_component_emits x0 current tie conf g m cn st st' :
  same_frame x0 st.1 →
  limits_component current tie conf g m cn st = Ok st' →
  emits st.1 st'.1 (component_limit_calls x0 current tie conf g m cn).
Proof.
  intros Hf H. unfold limits_component in H.
  destruct (get_component m cn) as [comp|] eqn:Ec; [|done]. simpl in H.
  apply or_raise_Ok in Ec.
  destruct (for_each (ODict.keys conf) _ st) as [st1|] eqn:E1; [|done]. simpl in H.
  destruct (for_each (parameterNames comp) _ st1.1) as [x2|] eqn:E2; [|done].
  injection H as <-. simpl.
  pose proof (for_each_emits fst x0 (limit_call x0 current tie conf g cn)
                _ _ (fun a s s' _ => limits_parameter_emits _ _ _ _ _ _ _ s s')
                _ _ Hf E1) as H1.
  pose proof (for_each_emits id x0 (untie_call current tie g cn)
                _ _ (fun a s s' _ _ => untie_parameter_emits _ _ _ _ _ s s')
                _ _ (emits_frame _ _ _ _ H1 Hf) E2) as H2.
  eapply emits_ext; [by eapply emits_seq|].
  unfold component_limit_calls. rewrite Ec. naive_solver.
Qed.

Lemma limits_instrument_emits x0 current tie conf i st st' :
  same_frame x0 st.1 →
  limits_instrument current tie conf i st = Ok st' →
  emits st.1 st'.1 (instrument_limit_calls x0 current tie conf i).
Proof.
  intros Hf H. unfold limits_instrument in H.
  destruct (get_model st.1 _ current) as [m|] eqn:Em; [|done]. simpl in H.
  apply or_raise_Ok in Em. destruct Hf as (Hm & Hrest). rewrite Hm in Em.
  pose proof (for_each_emits fst x0
                (component_limit_calls x0 current tie conf (signal_data_group i) m)
                _ _ (fun a s s' _ => limits_component_emits _ _ _ _ _ _ _ s s')
                _ _ (conj Hm Hrest) H) as H1.
  eapply emits_ext; [exact H1|].
  unfold instrument_limit_calls. rewrite Em. naive_solver.
Qed.

Lemma apply_parameter_limits_emits self conf tie x x' applied current :
  current_model self = Some current →
  apply_parameter_limits self conf tie x = Ok (x', applied) →
  emits x x' (fun c => ∃ i, i ∈ ODict.values (instruments self)
                        ∧ instrument_limit_calls x current tie conf i c).
Proof.
  intros Hc H. unfold apply_parameter_limits in H. rewrite Hc in H. simpl in H.
  apply (for_each_emits fst x (instrument_limit_calls x current tie conf)
           _ _ (fun a s s' _ => limits_instrument_emits _ _ _ _ _ s s')
           (x, []) (x', applied) (same_frame_refl x) H).
Qed.

(** A run of the step that has succeeded has found every parameter
    object that the components name. *)
Lemma apply_parameter_limits_exists self conf tie x res current :
  current_model self = Some current →
  apply_parameter_limits self conf tie x = Ok res →
  ∀ i m cn comp p,
    i ∈ ODict.values (instruments self) →
    AllModels x !! (signal_data_group i, current) = Some m →
    cn ∈ componentNames m →
    m_dict m !! cn = Some comp →
    p ∈ parameterNames comp →
    has_parameter x (mkParamRef (signal_data_group i) current cn p) = true.
Proof.
  intros Hc H i m cn comp p Hi Hm Hcn Hcomp Hp.
  unfold apply_parameter_limits in H. rewrite Hc in H. simpl in H.
  destruct (for_each_pass fst x (limits_instrument current tie conf) _
              (fun a s s' Hf Hb =>
                 emits_frame _ _ _ _ (limits_instrument_emits _ _ _ _ _ s s' Hf Hb) Hf)
              (x, []) res (same_frame_refl x) H i Hi) as (t & t' & Hft & Ht).
  unfold limits_instrument in Ht. run_step Ht Em. apply or_raise_Ok in Em.
  pose proof Hft as (Hmod & _). rewrite Hmod, Hm in Em. injection Em as <-.
  destruct (for_each_pass fst x
              (limits_component current tie conf (signal_data_group i) m) _
              (fun a s s' Hf Hb =>
                 emits_frame _ _ _ _ (limits_component_emits _ _ _ _ _ _ _ s s' Hf Hb) Hf)
              t t' Hft Ht cn Hcn) as (u & u' & Hfu & Hu).
  unfold limits_component in Hu. unfold get_component in Hu. rewrite Hcomp in Hu.
  cbn [or_raise mbind result_bind] in Hu. run_step Hu E1. run_step Hu E2.
  pose proof (for_each_emits fst x _ _ _
                (fun a s s' _ => limits_parameter_emits x current tie conf
                                   (signal_data_group i) cn a s s')
                _ _ Hfu E1) as Hem1.
  pose proof (emits_frame _ _ _ _ Hem1 Hfu) as Hf1.
  destruct (for_each_pass id x
              (untie_parameter current tie (signal_data_group i) cn) _
              (fun a s s' Hf Hb =>
                 emits_frame _ _ _ _ (untie_parameter_emits _ _ _ _ a s s' Hb) Hf)
              _ _ Hf1 E2 p Hp) as (w & w' & Hfw & Hw).
  unfold untie_parameter in Hw. run_step Hw Er.
  apply get_parameter_Ok in Er as [_ Hh].
  destruct Hfw as (_ & _ & _ & Hhas). by rewrite <- Hhas.
Qed.

Lemma odict_lookup_keys {V} (k : string) (v : V) (d : list (string * V)) :
  ODict.lookup k d = Some v → k ∈ ODict.keys d.
Proof.
  unfold ODict.keys. induction d as [|[k' v'] d IH]; simpl; [done|].
  case_decide; subst; [left | right; auto].
Qed.

(** The two shapes of a call of the parameter-limit step. *)
Lemma instrument_limit_calls_shape x current tie conf i c :
  instrument_limit_calls x current tie conf i c →
  (∃ cn p entry,
      ODict.lookup p conf = Some entry
      ∧ (1 <? signal_data_group i)%nat && tie = false
      ∧ c = SetValues (mkParamRef (signal_data_group i) current cn p)
              (ODict.values entry))
  ∨ (tie = false
     ∧ ∃ cn p, c = SetLink (mkParamRef (signal_data_group i) current cn p)
                     (LinkExpr "")).
Proof.
  intros (m & _ & cn & _ & comp & _ & [(p & _ & _ & Hs & entry & He & ->)
                                      | (p & _ & Ht & ->)]).
  - left. by exists cn, p, entry.
  - right. split; [done|]. by exists cn, p.
Qed.

Lemma untie_loop_exact current tie g cn names x x' :
  for_each names (untie_parameter current tie g cn) x = Ok x' →
  x' = replay (if tie then []
               else map (fun p => SetLink (mkParamRef g current cn p) (LinkExpr ""))
                      names) x.
Proof.
  revert x. induction names as [|p names IH]; intros x H.
  - injection H as <-. by destruct tie.
  - cbn [for_each] in H.
    destruct (untie_parameter current tie g cn p x) as [x1|] eqn:E; [|done].
    cbn [mbind result_bind] in H. rewrite (IH _ H). clear IH H.
    unfold untie_parameter in E.
    destruct (get_parameter x _) as [r|] eqn:Er; [|done].
    apply get_parameter_Ok in Er as [-> _]. cbn [mbind result_bind] in E.
    destruct tie; simpl in E; by injection E as <-.
Qed.

Lemma set_parameter_limits_inv XSPECConfiguration self config_file tie x r :
  _set_parameter_limits XSPECConfiguration self config_file tie x = Ok r →
  ∃ conf, XSPECConfiguration config_file = Ok conf
    ∧ apply_parameter_limits (with_config_file config_file self) conf tie x
      = Ok (r.1.2, r.2)
    ∧ r.1.1 = with_config_file config_file self.
Proof.
  unfold _set_parameter_limits. intros H.
  destruct (XSPECConfiguration config_file) as [conf|]; [|done]. simpl in H.
  destruct (apply_parameter_limits _ conf tie x) as [[x' a]|] eqn:E; [|done].
  injection H as <-. by exists conf.
Qed.




(** ** Links to the pileup models *)

Lemma get_pileup_model_frame x0 x i :
  same_frame x0 x → get_pileup_model x i = get_pileup_model x0 i.
Proof.
  intros (Hm & _). unfold get_pileup_model, get_model. by rewrite Hm.
Qed.

Lemma link_parameter_emits current sg sm pg pname cn p x x' :
  link_parameter current sg sm pg pname cn p x = Ok x' →
  emits x x' (fun c => c = SetLink (mkParamRef sg current cn p)
                             (LinkParam (mkParamRef pg pname cn p))).
Proof.
  unfold link_parameter. intros H.
  run_step H E1. apply get_parameter_Ok in E1 as [-> _].
  run_step H Ec. run_step H E2.
  apply get_parameter_Ok in E2 as [-> _]. injection H as <-. apply emits_one.
Qed.

Lemma link_instrument_emits x0 current i st st' :
  same_frame x0 st.1.1 →
  link_instrument current i st = Ok st' →
  emits st.1.1 st'.1.1 (link_calls x0 current i).
Proof.
  destruct st as [[x ref] nps]. simpl. intros Hf H. unfold link_instrument in H.
  destruct (get_signal_model x i current) as [sm|]; [|done]. simpl in H.
  rewrite (get_pileup_model_frame x0) in H by done.
  unfold link_calls.
  destruct (get_pileup_model x0 i) as [[pm|]|] eqn:Ep; simpl in H; [| |done].
  - destruct (pileup_data_group i) as [pg|]; [|done]. simpl in H.
    destruct (pileup_model_name i) as [pname|]; [|done]. simpl in H.
    destruct (for_each (componentNames pm) _ x) as [x1|] eqn:E; [|done].
    injection H as <-. simpl.
    pose proof (for_each_emits id x0
      (fun cn c => ∃ comp p, m_dict pm !! cn = Some comp ∧ p ∈ parameterNames comp
         ∧ c = SetLink (mkParamRef (signal_data_group i) current cn p)
                 (LinkParam (mkParamRef pg pname cn p)))
      (link_component current (signal_data_group i) sm pg pname pm)
      (componentNames pm)) as Hloop.
    eapply emits_ext; [eapply Hloop; [|exact Hf|exact E]|].
    + intros cn s s' _ Hfs Hb. unfold link_component in Hb.
      destruct (get_component pm cn) as [comp|] eqn:Ec; [|done].
      apply or_raise_Ok in Ec. simpl in Hb.
      pose proof (for_each_emits id x0 _ _ _
        (fun p t t' _ _ => link_parameter_emits _ _ _ _ _ _ p t t') _ _ Hfs Hb) as Hp.
      eapply emits_ext; [exact Hp|]. simpl. rewrite Ec. naive_solver.
    + naive_solver.
  - injection H as <-. simpl. eapply emits_ext; [apply emits_none|]. naive_solver.
Qed.

Lemma link_instrument_frame x0 current i st st' :
  same_frame x0 st.1.1 → link_instrument current i st = Ok st' →
  same_frame x0 st'.1.1.
Proof. intros Hf H. eapply emits_frame; [by eapply link_instrument_emits | done]. Qed.

(** What the first loop leaves in [no_pileup_instruments] and in
    [ref_model]. *)
Lemma link_loop_locals x0 current insts st st' :
  same_frame x0 st.1.1 →
  for_each insts (link_instrument current) st = Ok st' →
  st'.2 = st.2 ++ filter (fun i => pileup_file i = None) insts
  ∧ (st'.1.2 = st.1.2
     ∨ ∃ i pm, i ∈ insts ∧ get_pileup_model x0 i = Ok (Some pm) ∧ st'.1.2 = Some pm).
Proof.
  revert st. induction insts as [|i insts IH]; intros st Hf H.
  - injection H as <-. rewrite app_nil_r. auto.
  - cbn [for_each] in H.
    destruct (link_instrument current i st) as [st1|] eqn:E; [|done].
    cbn [mbind result_bind] in H.
    pose proof (link_instrument_frame _ _ _ _ _ Hf E) as Hf1.
    destruct (IH _ Hf1 H) as [Hn Hr]. clear IH H.
    destruct st as [[x ref] nps]. unfold link_instrument in E. simpl in Hf.
    destruct (get_signal_model x i current) as [sm|]; [|done]. simpl in E.
    rewrite (get_pileup_model_frame x0) in E by done.
    destruct (get_pileup_model x0 i) as [[pm|]|] eqn:Ep; simpl in E; [| |done].
    + destruct (pileup_data_group i) as [pg|]; [|done]. simpl in E.
      destruct (pileup_model_name i) as [pname|] eqn:En; [|done]. simpl in E.
      destruct (for_each (componentNames pm) _ x) as [x1|]; [|done].
      injection E as <-. simpl in *.
      assert (pileup_file i ≠ None).
      { unfold pileup_model_name in En. by destruct (pileup_file i). }
      rewrite filter_cons_False by done. split; [done|]. right.
      destruct Hr as [->|(j & pj & Hj & Hpj & ->)].
      * exists i, pm. split; [left | done].
      * exists j, pj. split; [by right | done].
    + injection E as <-. simpl in *.
      assert (pileup_file i = None).
      { unfold get_pileup_model, pileup_model_name in Ep.
        destruct (pileup_file i); [|done]. simpl in Ep.
        destruct (pileup_data_group i); [|done]. simpl in Ep.
        by destruct (get_model x0 _ _). }
      rewrite filter_cons_True by done. rewrite <- app_assoc in Hn.
      split; [done|].
      destruct Hr as [->|(j & pj & Hj & Hpj & ->)]; [by left|].
      right. exists j, pj. split; [by right | done].
Qed.

Lemma zero_instrument_emits x0 current ref i x x' :
  same_frame x0 x →
  zero_instrument current (Some ref) i x = Ok x' →
  emits x x' (zero_calls x0 current ref i).
Proof.
  intros Hf H. unfold zero_instrument in H.
  destruct (get_signal_model x i current) as [sm|] eqn:Es; [|done].
  apply or_raise_Ok in Es. pose proof Hf as (Hm & _). rewrite Hm in Es.
  simpl in H.
  pose proof (for_each_emits id x0
    (fun cn c => ∃ comp p, m_dict sm !! cn = Some comp ∧ p ∈ parameterNames comp
       ∧ (c = SetValues (mkParamRef (signal_data_group i) current cn p) ZERO_VALUES
          ∨ c = SetFrozen (mkParamRef (signal_data_group i) current cn p) true))
    (zero_component current (signal_data_group i) sm) (componentNames ref)) as Hloop.
  eapply emits_ext; [eapply Hloop; [|exact Hf|exact H]|].
  - intros cn s s' _ Hfs Hb. unfold zero_component in Hb.
    destruct (get_component sm cn) as [comp|] eqn:Ec; [|done].
    apply or_raise_Ok in Ec. simpl in Hb.
    pose proof (for_each_emits id x0
      (fun p c =>
         c = SetValues (mkParamRef (signal_data_group i) current cn p) ZERO_VALUES
         ∨ c = SetFrozen (mkParamRef (signal_data_group i) current cn p) true)
      (zero_parameter current (signal_data_group i) cn) (parameterNames comp)) as Hp.
    eapply emits_ext; [eapply Hp; [|exact Hfs|exact Hb]|].
    + intros p t t' _ _ Ht. unfold zero_parameter in Ht.
      destruct (get_parameter t _) as [r|] eqn:Er; [|done].
      apply get_parameter_Ok in Er as [-> _]. injection Ht as <-.
      eapply emits_ext; [eapply emits_seq; apply emits_one|]. done.
    + simpl. rewrite Ec. naive_solver.
  - unfold zero_calls. rewrite Es. naive_solver.
Qed.

Lemma link_parameter_frame x0 current sg sm pg pname cn p x x' :
  same_frame x0 x → link_parameter current sg sm pg pname cn p x = Ok x' →
  same_frame x0 x'.
Proof. intros Hf H. eapply emits_frame; [by eapply link_parameter_emits | done]. Qed.

Lemma link_component_frame x0 current sg sm pg pname pm cn x x' :
  same_frame x0 x → link_component current sg sm pg pname pm cn x = Ok x' →
  same_frame x0 x'.
Proof.
  intros Hf H. unfold link_component in H. run_step H Ec.
  eapply (for_each_frame id); [|exact Hf|exact H].
  intros p s s'. apply link_parameter_frame.
Qed.

(** A run of the first loop that has succeeded has found, for every
    parameter of a pileup model, the signal parameter it links. *)
Lemma link_loop_exists x current insts st st' :
  same_frame x st.1.1 →
  for_each insts (link_instrument current) st = Ok st' →
  ∀ i pm pg pname cn comp p,
    i ∈ insts →
    get_pileup_model x i = Ok (Some pm) →
    pileup_data_group i = Some pg →
    pileup_model_name i = Some pname →
    cn ∈ componentNames pm →
    m_dict pm !! cn = Some comp →
    p ∈ parameterNames comp →
    has_parameter x (mkParamRef (signal_data_group i) current cn p) = true.
Proof.
  intros Hf H i pm pg pname cn comp p Hi Hpm Hpg Hpn Hcn Hcomp Hp.
  destruct (for_each_pass (fun st : Linking => st.1.1) x (link_instrument current) _
              (fun a s s' => link_instrument_frame x current a s s')
              st st' Hf H i Hi) as ([[t ref] nps] & t' & Hft & Ht).
  simpl in Hft. unfold link_instrument in Ht.
  run_step Ht Es. rewrite (get_pileup_model_frame x), Hpm in Ht by done.
  cbn [mbind result_bind] in Ht. rewrite Hpg, Hpn in Ht.
  cbn [or_raise mbind result_bind] in Ht. run_step Ht El. clear Ht.
  destruct (for_each_pass id x
              (link_component current (signal_data_group i) a pg pname pm) _
              (fun c s s' => link_component_frame x _ _ _ _ _ _ c s s')
              _ _ Hft El cn Hcn) as (u & u' & Hfu & Hu).
  unfold link_component, get_component in Hu. rewrite Hcomp in Hu.
  cbn [or_raise mbind result_bind] in Hu.
  destruct (for_each_pass id x
              (link_parameter current (signal_data_group i) a pg pname cn) _
              (fun q s s' => link_parameter_frame x _ _ _ _ _ _ q s s')
              _ _ Hfu Hu p Hp) as (w & w' & Hfw & Hw).
  unfold link_parameter in Hw. run_step Hw E1. run_step Hw E2. run_step Hw E3.
  apply get_parameter_Ok in E3 as [_ Hh].
  destruct Hfw as (_ & _ & _ & Hhas). by rewrite <- Hhas.
Qed.

Lemma zero_parameter_frame x0 current sg cn p x x' :
  same_frame x0 x → zero_parameter current sg cn p x = Ok x' → same_frame x0 x'.
Proof.
  intros Hf H. unfold zero_parameter in H. run_step H E. injection H as <-.
  by do 2 apply send_frame.
Qed.

Lemma zero_component_frame x0 current sg sm cn x x' :
  same_frame x0 x → zero_component current sg sm cn x = Ok x' → same_frame x0 x'.
Proof.
  intros Hf H. unfold zero_component in H. run_step H Ec.
  eapply (for_each_frame id); [|exact Hf|exact H].
  intros p s s'. apply zero_parameter_frame.
Qed.

Lemma zero_instrument_frame x0 current ref i x x' :
  same_frame x0 x → zero_instrument current ref i x = Ok x' → same_frame x0 x'.
Proof.
  intros Hf H. unfold zero_instrument in H. run_step H Es. run_step H Er.
  eapply (for_each_frame id); [|exact Hf|exact H].
  intros p s s'. apply zero_component_frame.
Qed.

(** A run of the second loop that has succeeded has found every
    parameter it sets to zero. *)
Lemma zero_loop_exists x0 current rf nps x1 x' :
  same_frame x0 x1 →
  for_each nps (zero_instrument current (Some rf)) x1 = Ok x' →
  ∀ i sm cn comp p,
    i ∈ nps →
    AllModels x0 !! (signal_data_group i, current) = Some sm →
    cn ∈ componentNames rf →
    m_dict sm !! cn = Some comp →
    p ∈ parameterNames comp →
    has_parameter x0 (mkParamRef (signal_data_group i) current cn p) = true.
Proof.
  intros Hf H i sm cn comp p Hi Hsm Hcn Hcomp Hp.
  destruct (for_each_pass id x0 (zero_instrument current (Some rf)) _
              (fun a s s' => zero_instrument_frame x0 current _ a s s')
              _ _ Hf H i Hi) as (t & t' & Hft & Ht).
  simpl in Hft. unfold zero_instrument in Ht. run_step Ht Es.
  apply or_raise_Ok in Es. pose proof Hft as (Hmod & _).
  rewrite Hmod, Hsm in Es. injection Es as <-.
  cbn [or_raise mbind result_bind] in Ht.
  destruct (for_each_pass id x0
              (zero_component current (signal_data_group i) sm) _
              (fun c s s' => zero_component_frame x0 _ _ _ c s s')
              _ _ Hft Ht cn Hcn) as (u & u' & Hfu & Hu).
  unfold zero_component, get_component in Hu. rewrite Hcomp in Hu.
  cbn [or_raise mbind result_bind] in Hu.
  destruct (for_each_pass id x0
              (zero_parameter current (signal_data_group i) cn) _
              (fun q s s' => zero_parameter_frame x0 _ _ _ q s s')
              _ _ Hfu Hu p Hp) as (w & w' & Hfw & Hw).
  unfold zero_parameter in Hw. run_step Hw E1.
  apply get_parameter_Ok in E1 as [_ Hh].
  destruct Hfw as (_ & _ & _ & Hhas). by rewrite <- Hhas.
Qed.

Lemma zero_instrument_unbound current i x x' :
  zero_instrument current None i x = Ok x' → False.
Proof.
  unfold zero_instrument. destruct (get_signal_model x i current); by simpl.
Qed.

Lemma NoDup_fmap_eq {A B} (f : A → B) (l : list A) (a b : A) :
  NoDup (f <$> l) → a ∈ l → b ∈ l → f a = f b → a = b.
Proof.
  induction l as [|y l IH]; simpl; intros Hnd Ha Hb Hf; [by apply elem_of_nil in Ha|].
  apply NoDup_cons in Hnd as [Hy Hnd].
  apply elem_of_cons in Ha as [->|Ha]; apply elem_of_cons in Hb as [->|Hb]; auto.
  - exfalso. apply Hy. rewrite Hf. by apply list_elem_of_fmap_2.
  - exfalso. apply Hy. rewrite <- Hf. by apply list_elem_of_fmap_2.
Qed.


(** ** The constant factors *)

Lemma constant_factor_Ok x current g r :
  constant_factor x current g = Ok r →
  r = mkParamRef g current "constant" "factor" ∧ has_parameter x r = true.
Proof.
  unfold constant_factor. intros H. run_step H Em. run_step H Ec.
  destruct (has_parameter x _) eqn:Hh; [|done]. by injection H as <-.
Qed.

(** The calls that free the factor of the group [g]. *)
Lemma free_factor_emits current first g x x' :
  free_factor current first g x = Ok x' →
  emits x x' (fun c =>
    g ≠ first
    ∧ (c = SetValue (mkParamRef g current "constant" "factor") 1.0%float
       ∨ c = SetLink (mkParamRef g current "constant" "factor") (LinkExpr "")
       ∨ c = SetFrozen (mkParamRef g current "constant" "factor") false))
  ∧ (g ≠ first → has_parameter x (mkParamRef g current "constant" "factor") = true).
Proof.
  unfold free_factor. intros H. case_bool_decide as Hg.
  - run_step H E1. apply constant_factor_Ok in E1 as [-> Hh].
    run_step H E2. apply constant_factor_Ok in E2 as [-> _].
    run_step H E3. apply constant_factor_Ok in E3 as [-> _].
    injection H as <-. split; [|done].
    eapply emits_ext;
      [eapply emits_seq; [eapply emits_seq|]; apply emits_one|].
    naive_solver.
  - injection H as <-. split; [|done].
    eapply emits_ext; [apply emits_none|]. naive_solver.
Qed.

Lemma constant_convention_spec current groups x x' first m :
  constant_convention current groups x = Ok x' →
  head groups = Some first →
  AllModels x !! (first, current) = Some m →
  "constant" ∈ componentNames m →
  (∃ q, params x' !! mkParamRef first current "constant" "factor" = Some q
        ∧ p_link q = LinkExpr "" ∧ p_frozen q = true)
  ∧ ∀ g, g ∈ groups → g ≠ first →
      ∃ q, params x' !! mkParamRef g current "constant" "factor" = Some q
           ∧ head (p_values q) = Some 1.0%float
           ∧ p_link q = LinkExpr "" ∧ p_frozen q = false.
Proof.
  intros H Hfirst Hm Hc. unfold constant_convention in H.
  rewrite Hfirst in H. cbn [or_raise mbind result_bind] in H.
  unfold get_model in H. rewrite Hm in H. cbn [or_raise mbind result_bind] in H.
  rewrite bool_decide_eq_true_2 in H by done.
  run_step H E1. apply constant_factor_Ok in E1 as [-> Hh1].
  run_step H E2. apply constant_factor_Ok in E2 as [-> _].
  set (f1 := mkParamRef first current "constant" "factor") in *.
  set (x1 := set_frozen f1 true (set_link f1 (LinkExpr "") x)) in *.
  assert (Hem1 : emits x x1 (fun c => c = SetLink f1 (LinkExpr "")
                                      ∨ c = SetFrozen f1 true)).
  { eapply emits_seq; apply emits_one. }
  pose proof (emits_frame x _ _ _ Hem1 (same_frame_refl x)) as Hf1.
  pose proof (for_each_emits id x _ _ _
                (fun g s s' _ _ Hb => proj1 (free_factor_emits current first g s s' Hb))
                _ _ Hf1 H) as Hem2.
  pose proof (emits_seq _ _ _ _ _ Hem1 Hem2) as Hem. simpl in Hem.
  split.
  - destruct (emits_sets p_link (LinkExpr "") _ _ _ f1 Hem) as (q & Hq & Hl);
      [| |done|].
    { intros c [[-> | ->] | (g & _ & Hg & [-> | [-> | ->]])] Ht;
        try (by left; intros ?); try (by right; intros ?);
        injection Ht as ->; done. }
    { exists (SetLink f1 (LinkExpr "")). split; [by left; left | by split]. }
    destruct (emits_sets p_frozen true _ _ _ f1 Hem) as (q' & Hq' & Hz);
      [| |done|].
    { intros c [[-> | ->] | (g & _ & Hg & [-> | [-> | ->]])] Ht;
        try (by left; intros ?); try (by right; intros ?);
        injection Ht as ->; done. }
    { exists (SetFrozen f1 true). split; [by left; right | by split]. }
    rewrite Hq in Hq'. injection Hq' as <-. by exists q.
  - intros g Hg Hne.
    set (fg := mkParamRef g current "constant" "factor").
    assert (Hhg : has_parameter x fg = true).
    { destruct (for_each_pass id x (free_factor current first) groups) with
        (s := x1) (s' := x') (a := g) as (t & t' & Hft & Ht); try done.
      - intros a s s' Hfs Hb. eapply emits_frame; [|exact Hfs].
        apply (free_factor_emits _ _ _ _ _ Hb).
      - destruct Hft as (_ & _ & _ & Hh). rewrite <- Hh.
        by apply (free_factor_emits _ _ _ _ _ Ht). }
    assert (Hshape : ∀ c,
      ((c = SetLink f1 (LinkExpr "") ∨ c = SetFrozen f1 true)
       ∨ ∃ a, a ∈ groups ∧ a ≠ first
           ∧ (c = SetValue (mkParamRef a current "constant" "factor") 1.0%float
              ∨ c = SetLink (mkParamRef a current "constant" "factor") (LinkExpr "")
              ∨ c = SetFrozen (mkParamRef a current "constant" "factor") false)) →
      call_target c = fg →
      c = SetValue fg 1.0%float ∨ c = SetLink fg (LinkExpr "") ∨ c = SetFrozen fg false).
    { intros c [[-> | ->] | (a & _ & Ha & [-> | [-> | ->]])] Ht;
        simpl in Ht; injection Ht as ->; auto; done. }
    assert (Hmine : ∀ c,
      c = SetValue fg 1.0%float ∨ c = SetLink fg (LinkExpr "") ∨ c = SetFrozen fg false →
      (c = SetLink f1 (LinkExpr "") ∨ c = SetFrozen f1 true)
      ∨ ∃ a, a ∈ groups ∧ a ≠ first
          ∧ (c = SetValue (mkParamRef a current "constant" "factor") 1.0%float
             ∨ c = SetLink (mkParamRef a current "constant" "factor") (LinkExpr "")
             ∨ c = SetFrozen (mkParamRef a current "constant" "factor") false)).
    { intros c Hc'. right. by exists g. }
    destruct (emits_sets (fun q => head (p_values q)) (Some 1.0%float) _ _ _ fg Hem)
      as (q & Hq & Hv); [| |done|].
    { intros c Hc' Ht. destruct (Hshape c Hc' Ht) as [-> | [-> | ->]];
        [right | left | left]; by intros ?. }
    { exists (SetValue fg 1.0%float). split; [apply Hmine; auto | by split]. }
    destruct (emits_sets p_link (LinkExpr "") _ _ _ fg Hem) as (q1 & Hq1 & Hl);
      [| |done|].
    { intros c Hc' Ht. destruct (Hshape c Hc' Ht) as [-> | [-> | ->]];
        [left | right | left]; by intros ?. }
    { exists (SetLink fg (LinkExpr "")). split; [apply Hmine; auto | by split]. }
    destruct (emits_sets p_frozen false _ _ _ fg Hem) as (q2 & Hq2 & Hz);
      [| |done|].
    { intros c Hc' Ht. destruct (Hshape c Hc' Ht) as [-> | [-> | ->]];
        [left | left | right]; by intros ?. }
    { exists (SetFrozen fg false). split; [apply Hmine; auto | by split]. }
    rewrite Hq in Hq1, Hq2. injection Hq1 as <-. injection Hq2 as <-.
    by exists q.
Qed.

Lemma constant_convention_frame current groups x x' :
  constant_convention current groups x = Ok x' → same_frame x x'.
Proof.
  intros H. unfold constant_convention in H.
  run_step H Eg. run_step H Em. destruct (bool_decide _).
  - run_step H E1. apply constant_factor_Ok in E1 as [-> _].
    run_step H E2. apply constant_factor_Ok in E2 as [-> _].
    assert (Hf1 : same_frame x
              (set_frozen (mkParamRef a current "constant" "factor") true
                 (set_link (mkParamRef a current "constant" "factor")
                    (LinkExpr "") x))).
    { apply (same_frame_replay x x [_; _]), same_frame_refl. }
    eapply emits_frame; [|exact Hf1].
    apply (for_each_emits id x _ _ _
             (fun g s s' _ _ Hb => proj1 (free_factor_emits current a g s s' Hb))
             _ _ Hf1 H).
  - injection H as <-. apply same_frame_refl.
Qed.

Lemma archive_previous_fields self x self' newly :
  archive_previous self x = Ok (self', newly) →
  signal_groups self' = signal_groups self
  ∧ instruments self' = instruments self
  ∧ pileup_expression self' = pileup_expression self.
Proof.
  unfold archive_previous. intros H.
  destruct (current_model self); [destruct (results self)|].
  - run_step H E. by injection H as <- <-.
  - by injection H as <- <-.
  - by injection H as <- <-.
Qed.

(** The last step of [add_component]. *)
Lemma add_component_last
    (xspec_Model : string → string → nat → Xspec → result (Model * Xspec))
    (XSPECConfiguration : string → result (list (string * list (string * float))))
    self model_name expression limits_file dir freeze tie x self' x' model :
  add_component xspec_Model XSPECConfiguration self model_name expression
    limits_file dir freeze tie x = Ok (self', x', model) →
  ∃ x3, constant_convention model_name (signal_groups self) x3 = Ok x'
    ∧ signal_groups self' = signal_groups self.
Proof.
  unfold add_component. intros H.
  run_step H Ea. destruct a as [self1 newly].
  apply archive_previous_fields in Ea as (Hg & _ & _). simpl in Hg, H.
  run_step H Er. run_step H Ee. run_step H Eb. run_step H El.
  apply set_parameter_limits_inv in El as (conf & _ & _ & Hs).
  run_step H Ep. run_step H Em. run_step H Ec.
  injection H as <- <- <-. rewrite Hs in *. simpl in *. rewrite Hg in Ec.
  eauto.
Qed.


(** ** Migration *)

Lemma migrate_parameter_emits current fz g oc pn x x' :
  migrate_parameter current fz g oc pn x = Ok x' →
  emits x x' (fun c =>
    ∃ op, ODict.lookup pn (ac_parameters oc) = Some op
      ∧ link_truthy (ap_link op) = false
      ∧ (c = SetValues (mkParamRef g current (ac_name oc) pn) (ap_values op)
         ∨ c = SetFrozen (mkParamRef g current (ac_name oc) pn)
                 (ap_frozen op || fz))).
Proof.
  unfold migrate_parameter. intros H.
  destruct (ODict.lookup pn (ac_parameters oc)) as [op|].
  - run_step H E. apply get_parameter_Ok in E as [-> _].
    destruct (link_truthy (ap_link op)) eqn:El; injection H as <-.
    + eapply emits_ext; [apply emits_none|].
      intros c. split; [done|]. intros (op0 & [= <-] & Hl & _). congruence.
    + eapply emits_ext; [eapply emits_seq; apply emits_one|].
      intros c. split.
      * intros Hc. exists op. by repeat split.
      * by intros (op0 & [= <-] & _ & Hc).
  - injection H as <-. eapply emits_ext; [apply emits_none|]. naive_solver.
Qed.

Lemma migrate_group_emits x0 current fz archived g k it x st' :
  same_frame x0 x →
  migrate_group current fz archived g (x, k :: it) = Ok st' →
  emits x st'.1 (migration_call x0 current fz archived g k) ∧ st'.2 = it.
Proof.
  intros Hf H. unfold migrate_group in H. simpl in H.
  run_step H Em. apply or_raise_Ok in Em.
  pose proof Hf as (Hmod & _). rewrite Hmod in Em.
  run_step H Ea. apply or_raise_Ok in Ea.
  run_step H El. injection H as <-. simpl. split; [|done].
  pose proof (for_each_emits id x0
    (fun oc c => String.eqb (ac_name oc) "constant" && (g =? 1)%nat = false
       ∧ ∃ nc pn op, m_dict a !! ac_name oc = Some nc ∧ pn ∈ parameterNames nc
           ∧ ODict.lookup pn (ac_parameters oc) = Some op
           ∧ link_truthy (ap_link op) = false
           ∧ (c = SetValues (mkParamRef g current (ac_name oc) pn) (ap_values op)
              ∨ c = SetFrozen (mkParamRef g current (ac_name oc) pn)
                      (ap_frozen op || fz)))
    (migrate_component current fz g a) (ODict.values (am_components a0))) as Hloop.
  eapply emits_ext; [eapply Hloop; [|exact Hf|exact El]|].
  - intros oc s s' _ Hfs Hb. unfold migrate_component in Hb.
    destruct (String.eqb (ac_name oc) "constant" && (g =? 1)%nat) eqn:Hskip.
    + injection Hb as <-. eapply emits_ext; [apply emits_none|]. naive_solver.
    + run_step Hb Ec. apply or_raise_Ok in Ec.
      pose proof (for_each_emits id x0 _ _ _
        (fun pn t t' _ _ => migrate_parameter_emits current fz g oc pn t t')
        _ _ Hfs Hb) as Hp.
      eapply emits_ext; [exact Hp|]. simpl. rewrite Ec. naive_solver.
  - unfold migration_call. rewrite Em, Ea. naive_solver.
Qed.

Lemma migrate_groups_emits x0 current fz archived groups it x st' :
  same_frame x0 x →
  for_each groups (migrate_group current fz archived) (x, it) = Ok st' →
  emits x st'.1 (fun c => ∃ i g k, groups !! i = Some g ∧ it !! i = Some k
                            ∧ migration_call x0 current fz archived g k c).
Proof.
  revert it x. induction groups as [|g groups IH]; intros it x Hf H.
  - injection H as <-. eapply emits_ext; [apply emits_none|].
    intros c. split; [done|]. by intros (i & ? & ? & ? & _).
  - cbn [for_each] in H. run_step H E.
    destruct it as [|k it].
    { unfold migrate_group in E. simpl in E. by destruct (get_model x g current). }
    destruct a as [x1 it1].
    apply (migrate_group_emits x0) in E as [He Hit]; [|done]. simpl in He, Hit.
    subst it1.
    pose proof (IH it x1 (emits_frame _ _ _ _ He Hf) H) as He2.
    eapply emits_ext; [by eapply emits_seq|].
    intros c. split.
    + intros [Hc | (i & g' & k' & Hg & Hk & Hc)].
      * by exists 0, g, k.
      * by exists (S i), g', k'.
    + intros ([|i] & g' & k' & Hg & Hk & Hc); simpl in Hg, Hk.
      * left. congruence.
      * right. by exists i, g', k'.
Qed.

Lemma migrate_emits current fz archived groups x x' :
  migrate current fz archived groups x = Ok x' →
  emits x x' (fun c => ∃ i g k, groups !! i = Some g
                         ∧ ODict.keys archived !! i = Some k
                         ∧ migration_call x current fz archived g k c).
Proof.
  unfold migrate. intros H. destruct archived as [|e archived].
  - injection H as <-. eapply emits_ext; [apply emits_none|].
    intros c. split; [done|]. by intros (i & ? & ? & _ & ? & _).
  - run_step H E. injection H as <-.
    by apply (migrate_groups_emits x _ _ _ _ _ _ _ (same_frame_refl x)) in E.
Qed.

Lemma migrate_parameter_frame x0 current fz g oc pn x x' :
  same_frame x0 x → migrate_parameter current fz g oc pn x = Ok x' →
  same_frame x0 x'.
Proof. intros Hf H. eapply emits_frame; [by eapply migrate_parameter_emits | done]. Qed.

Lemma migrate_component_frame x0 current fz g m oc x x' :
  same_frame x0 x → migrate_component current fz g m oc x = Ok x' →
  same_frame x0 x'.
Proof.
  intros Hf H. unfold migrate_component in H.
  destruct (String.eqb (ac_name oc) "constant" && (g =? 1)%nat).
  - by injection H as <-.
  - run_step H Ec. eapply (for_each_frame id); [|exact Hf|exact H].
    intros p s s'. apply migrate_parameter_frame.
Qed.

(** The pass of the loop over the signal groups for the i-th group, with
    the i-th key. *)
Lemma migrate_groups_pass x0 current fz archived groups it x st' :
  same_frame x0 x →
  for_each groups (migrate_group current fz archived) (x, it) = Ok st' →
  ∀ i g k, groups !! i = Some g → it !! i = Some k →
    ∃ t it' t', same_frame x0 t
      ∧ migrate_group current fz archived g (t, k :: it') = Ok t'.
Proof.
  revert it x. induction groups as [|g0 groups IH]; intros it x Hf H i g k Hg Hk.
  - by destruct i.
  - cbn [for_each] in H. run_step H E.
    destruct it as [|k0 it]; [by destruct i|].
    destruct i as [|i]; simpl in Hg, Hk.
    + injection Hg as <-. injection Hk as <-. by exists x, it, a.
    + destruct a as [x1 it1].
      apply (migrate_group_emits x0) in E as [He Hit]; [|done]. simpl in He, Hit.
      subst it1. eapply (IH it x1); [by eapply emits_frame|exact H|exact Hg|exact Hk].
Qed.

(** A migration that has succeeded has found every parameter object it
    had a value for. *)
Lemma migrate_exists current fz archived groups x x' :
  migrate current fz archived groups x = Ok x' →
  ∀ i g k am oc m nc pn op,
    groups !! i = Some g →
    ODict.keys archived !! i = Some k →
    ODict.lookup k archived = Some am →
    oc ∈ ODict.values (am_components am) →
    ¬ (ac_name oc = "constant" ∧ g = 1) →
    AllModels x !! (g, current) = Some m →
    m_dict m !! ac_name oc = Some nc →
    pn ∈ parameterNames nc →
    ODict.lookup pn (ac_parameters oc) = Some op →
    has_parameter x (mkParamRef g current (ac_name oc) pn) = true.
Proof.
  intros H i g k am oc m nc pn op Hg Hk Ham Hoc Hnot Hm Hnc Hpn Hop.
  unfold migrate in H. destruct archived as [|e archived]; [by destruct i|].
  run_step H E. clear H.
  destruct (migrate_groups_pass x _ _ _ _ _ _ _ (same_frame_refl x) E i g k Hg Hk)
    as (t & it' & t' & Hft & Ht).
  unfold migrate_group in Ht. cbn [fst snd] in Ht. run_step Ht Em.
  apply or_raise_Ok in Em. pose proof Hft as (Hmod & _).
  rewrite Hmod, Hm in Em. injection Em as <-.
  rewrite Ham in Ht. cbn [or_raise mbind result_bind] in Ht. run_step Ht El.
  destruct (for_each_pass id x (migrate_component current fz g m) _
              (fun c s s' => migrate_component_frame x _ _ _ _ c s s')
              _ _ Hft El oc Hoc) as (u & u' & Hfu & Hu).
  unfold migrate_component in Hu.
  assert (Hskip : String.eqb (ac_name oc) "constant" && (g =? 1)%nat = false).
  { apply andb_false_iff.
    destruct (String.eqb_spec (ac_name oc) "constant") as [Hn|]; [|by left].
    right. apply Nat.eqb_neq. intros ->. by apply Hnot. }
  rewrite Hskip in Hu. unfold get_component in Hu. rewrite Hnc in Hu.
  cbn [or_raise mbind result_bind] in Hu.
  destruct (for_each_pass id x (migrate_parameter current fz g oc) _
              (fun q s s' => migrate_parameter_frame x _ _ _ _ q s s')
              _ _ Hfu Hu pn Hpn) as (w & w' & Hfw & Hw).
  unfold migrate_parameter in Hw. rewrite Hop in Hw. run_step Hw E1.
  apply get_parameter_Ok in E1 as [_ Hh].
  destruct Hfw as (_ & _ & _ & Hhas). by rewrite <- Hhas.
Qed.


(** ** The archive *)

Lemma odict_lookup_insert {V} (k : string) (v : V) (d : list (string * V)) :
  ODict.lookup k (ODict.insert k v d) = Some v.
Proof.
  induction d as [|[k' v'] d IH]; simpl.
  - by rewrite decide_True.
  - case_decide; simpl; [by rewrite decide_True | by rewrite decide_False].
Qed.

Lemma odict_lookup_insert_ne {V} (k k' : string) (v : V) (d : list (string * V)) :
  k ≠ k' → ODict.lookup k' (ODict.insert k v d) = ODict.lookup k' d.
Proof.
  intros Hne. induction d as [|[k0 v0] d IH]; simpl.
  - by rewrite decide_False.
  - destruct (decide (k = k0)) as [->|]; simpl.
    + by rewrite !decide_False.
    + by rewrite IH.
Qed.

Lemma odict_mem_true {V} (k : string) (d : list (string * V)) :
  ODict.mem k d = true ↔ is_Some (ODict.lookup k d).
Proof. unfold ODict.mem. apply bool_decide_eq_true. Qed.

Lemma odict_mem_false {V} (k : string) (d : list (string * V)) :
  ODict.mem k d = false ↔ ODict.lookup k d = None.
Proof.
  unfold ODict.mem. rewrite bool_decide_eq_false, <- eq_None_not_Some. done.
Qed.


(** ** Archiving the live models *)

Lemma archive_instrument_skip x self current instrument st :
  AllModels x !! (signal_data_group instrument, current) = None →
  archive_instrument x self current instrument st = Ok st.
Proof.
  intros Hn. unfold archive_instrument, get_signal_model, get_model.
  by rewrite Hn.
Qed.


(** ** The theorems at work on the small session *)







Example ex_pileup_zero :
  ∃ x',
    _set_pileup_links (with_current_model "m1" Example.pileup_session)
      Example.piled_live = Ok x'
    ∧ (p_values <$> params x' !! mkParamRef 3 "m1" "expmodgauss" "norm")
      = Some ZERO_VALUES
    ∧ (p_frozen <$> params x' !! mkParamRef 3 "m1" "expmodgauss" "norm") = Some true
    ∧ (p_link <$> params x' !! mkParamRef 1 "m1" "expmodgauss" "norm")
      = Some (LinkParam (mkParamRef 2 "pileupFPMA" "expmodgauss" "norm"))
    ∧ params x' !! mkParamRef 3 "m1" "vapec" "kT"
      = params Example.piled_live !! mkParamRef 3 "m1" "vapec" "kT".
Proof. eexists. split; [by vm_compute|]. repeat split; by vm_compute. Qed.
